(** * FujiNet Macintosh floppy serial bridge

    A shallow embedding of [lib/device/mac/floppy_serial_bridge.cpp] and
    [lib/device/mac/floppy_serial_handler.cpp] (loopback build,
    [MAC_SERIAL_LOOPBACK_TEST = 1]) together with the properties of the
    handshake state machine, the header codec, the channel handler and the
    byte queue.

    Conventions of the embedding:
    - [uint8_t], [uint16_t] and [uint32_t] values are [Z]; function
      parameters are taken to be in the range of their C type, and every
      place where the C code can wrap ([++], [+=], [-=], a store into a
      narrower object) has the reduction written out;
    - a buffer ([uint8_t *]) is a [list Z]; a pointer [p + k] is the
      suffix [drop k p] and the caller writes the suffix back; reads are
      [rd], stores are [wr]. Reading or writing beyond the end of a buffer
      is undefined in C: [rd] then yields 0 and [wr] does nothing, and the
      theorems that look at buffer contents carry the caller's contract
      (at least 12 tag bytes, a 512 byte block) as hypotheses;
    - the file-scope variables and the function-local [static] queue are
      collected in the record [globals], threaded through every call;
    - [Debug_printf] output is not modelled. *)

From Stdlib Require Import ZArith Lia.
From stdpp Require Import base list strings.

Local Open Scope Z_scope.

(** ** Machine integers and buffers *)

Definition uint8 (z : Z) : Z := z mod 256.
Definition uint16 (z : Z) : Z := z mod 65536.

Definition is_uint16 (z : Z) : Prop := 0 <= z < 65536.
Definition is_uint32 (z : Z) : Prop := 0 <= z < 4294967296.

Abbreviation buffer := (list Z).

Definition rd (buf : buffer) (i : nat) : Z := default 0 (buf !! i).
Definition wr (buf : buffer) (i : nat) (v : Z) : buffer := <[i := uint8 v]> buf.

(** [memcpy (dst + off, src, n)].  The C call requires [n] readable
    bytes at [src] and [n] writable bytes at [dst + off]; outside that
    contract the model copies the bytes that exist into the cells that
    exist and never changes the length of [dst]. *)
Definition memcpy (dst : buffer) (off : nat) (src : buffer) (n : nat) : buffer :=
  list_inserts off (take n src) dst.

(** [memmove (dst, dst + from, n)]: the source range is read before any
    byte is written. *)
Definition memmove_down (dst : buffer) (from n : nat) : buffer :=
  list_inserts 0 (take n (drop from dst)) dst.

(** [memcmp (a, b, n)]: 0 when the first [n] bytes agree, otherwise the
    sign of the first difference. *)
Fixpoint memcmp (a b : buffer) (n : nat) : Z :=
  match n with
  | O => 0
  | S n' =>
      let x := rd a 0 in
      let y := rd b 0 in
      if x =? y then memcmp (tail a) (tail b) n'
      else if x <? y then -1 else 1
  end.

(** The bytes of a C string literal, with its terminating NUL. *)
Definition c_str (s : string) : buffer :=
  map (fun c => Z.of_nat (Ascii.nat_of_ascii c)) (String.list_ascii_of_string s) ++ [0].

(** ** floppy_serial.h *)

Inductive mac_serial_mode : Set :=
  | MAC_SERIAL_READ
  | MAC_SERIAL_WRITE.

Definition mode_eqb (a b : mac_serial_mode) : bool :=
  match a, b with
  | MAC_SERIAL_READ, MAC_SERIAL_READ => true
  | MAC_SERIAL_WRITE, MAC_SERIAL_WRITE => true
  | _, _ => false
  end.

(** ** floppy_serial_handler.cpp: the fifo queue object *)

Definition FIFO_SIZE : Z := 2000.          (* sizeof(fb->fifoData) *)

Record FifoBuffer : Set := mkFifo {
  fifoLen : Z;
  fifoData : buffer
}.

Definition fifoBytesAvailable (fb : FifoBuffer) : Z := fifoLen fb.

Definition fifoSpaceLeft (fb : FifoBuffer) : Z := uint16 (FIFO_SIZE - fifoLen fb).

(** Returns the queue, the caller's buffer and the number of bytes copied. *)
Definition fifoGetData (fb : FifoBuffer) (buf : buffer) (len : Z)
  : FifoBuffer * buffer * Z :=
  let dataToReturn := Z.min (fifoLen fb) len in
  let buf' := memcpy buf 0 (fifoData fb) (Z.to_nat dataToReturn) in
  let data' := memmove_down (fifoData fb) (Z.to_nat dataToReturn)
                 (Z.to_nat (fifoLen fb - dataToReturn)) in
  (mkFifo (uint16 (fifoLen fb - dataToReturn)) data', buf', dataToReturn).

Definition fifoPutData (fb : FifoBuffer) (buf : buffer) (len : Z) : FifoBuffer :=
  if fifoLen fb + len <=? FIFO_SIZE then
    mkFifo (uint16 (fifoLen fb + len))
           (memcpy (fifoData fb) (Z.to_nat (fifoLen fb)) buf (Z.to_nat len))
  else fb.

Definition fifoPutChar (fb : FifoBuffer) (c : Z) : FifoBuffer :=
  fifoPutData fb [c] 1.

(** [static FifoBuffer fifo = {0,0};] *)
Definition fifo_init : FifoBuffer := mkFifo 0 (replicate 2000 0).

(** [mac_serial_handler] of the loopback build.  The queue is the
    function's [static] object; the result is the queue, the buffer and
    the returned count. *)
Definition mac_serial_handler (fifo : FifoBuffer) (buffer_ : buffer)
    (buffer_size : Z) (mode : mac_serial_mode) : FifoBuffer * buffer * Z :=
  match mode with
  | MAC_SERIAL_READ =>
      let availData := fifoBytesAvailable fifo in
      let '(fifo', buffer', bytesRead) := fifoGetData fifo buffer_ buffer_size in
      (fifo', buffer', availData)
  | MAC_SERIAL_WRITE =>
      (fifoPutData fifo buffer_ buffer_size, buffer_, 0)
  end.

(** ** floppy_serial_bridge.cpp *)

Definition MAC_SERIAL_KNOCK_SEQ : list Z := [0; 70; 85; 74; 73].
Definition MAC_SERIAL_REQUEST_TAG : buffer := c_str "NDEV".
Definition MAC_SERIAL_REPLY_TAG : buffer := c_str "FUJI".
Definition MAC_SERIAL_HEADER_LEN : Z := 12.
Definition MAC_SERIAL_NEGATIVE_LBA : Z := 0x007FFFFF.

Definition CHARS_TO_UINT16 (a b : Z) : Z :=
  Z.lor (Z.shiftl (uint16 a) 8) (Z.land (uint16 b) 0xFF).
Definition UINT16_HI_BYTE (a : Z) : Z := Z.land (Z.shiftr a 8) 0xFF.
Definition UINT16_LO_BYTE (a : Z) : Z := Z.land a 0xFF.

Inductive mac_serial_state_t : Set :=
  | MAC_SERIAL_WAIT_KNOCK
  | MAC_SERIAL_WAIT_MAGIC_WRITE
  | MAC_SERIAL_WAIT_MAGIC_READ
  | MAC_SERIAL_WAIT_MAGIC_SECTOR.

Definition state_eqb (a b : mac_serial_state_t) : bool :=
  match a, b with
  | MAC_SERIAL_WAIT_KNOCK, MAC_SERIAL_WAIT_KNOCK => true
  | MAC_SERIAL_WAIT_MAGIC_WRITE, MAC_SERIAL_WAIT_MAGIC_WRITE => true
  | MAC_SERIAL_WAIT_MAGIC_READ, MAC_SERIAL_WAIT_MAGIC_READ => true
  | MAC_SERIAL_WAIT_MAGIC_SECTOR, MAC_SERIAL_WAIT_MAGIC_SECTOR => true
  | _, _ => false
  end.

(** The mutable objects with static storage duration. *)
Record globals : Set := mkGlobals {
  mac_serial_state : mac_serial_state_t;
  mac_serial_knock : Z;
  mac_serial_drive : Z;
  mac_serial_sector : Z;
  fifo : FifoBuffer
}.

(** Zero initialisation, [mac_serial_knock = 0], [fifo = {0,0}]. *)
Definition globals_init : globals :=
  mkGlobals MAC_SERIAL_WAIT_KNOCK 0 0 0 fifo_init.

Definition set_state (g : globals) (s : mac_serial_state_t) : globals :=
  mkGlobals s (mac_serial_knock g) (mac_serial_drive g) (mac_serial_sector g) (fifo g).
Definition set_knock (g : globals) (k : Z) : globals :=
  mkGlobals (mac_serial_state g) k (mac_serial_drive g) (mac_serial_sector g) (fifo g).
Definition set_drive (g : globals) (d : Z) : globals :=
  mkGlobals (mac_serial_state g) (mac_serial_knock g) d (mac_serial_sector g) (fifo g).
Definition set_sector (g : globals) (s : Z) : globals :=
  mkGlobals (mac_serial_state g) (mac_serial_knock g) (mac_serial_drive g) s (fifo g).
Definition set_fifo (g : globals) (f : FifoBuffer) : globals :=
  mkGlobals (mac_serial_state g) (mac_serial_knock g) (mac_serial_drive g)
            (mac_serial_sector g) f.

Definition mac_serial_put_header (buff : buffer) (len : Z) : buffer :=
  let buff := wr buff 0 (rd MAC_SERIAL_REPLY_TAG 0) in
  let buff := wr buff 1 (rd MAC_SERIAL_REPLY_TAG 1) in
  let buff := wr buff 2 (rd MAC_SERIAL_REPLY_TAG 2) in
  let buff := wr buff 3 (rd MAC_SERIAL_REPLY_TAG 3) in
  let buff := wr buff 4 0 in
  let buff := wr buff 5 0 in
  let buff := wr buff 6 (UINT16_HI_BYTE len) in
  let buff := wr buff 7 (UINT16_LO_BYTE len) in
  let buff := wr buff 8 0 in
  let buff := wr buff 9 0 in
  let buff := wr buff 10 0 in
  let buff := wr buff 11 0 in
  buff.

(** [len] is the value held by the out-parameter before the call; it is
    overwritten only when the header is accepted. *)
Definition mac_serial_get_header (buff : buffer) (len : Z) : bool * Z :=
  if negb (memcmp buff MAC_SERIAL_REQUEST_TAG 4 =? 0) then (false, len)
  else (true, uint16 (CHARS_TO_UINT16 (rd buff 6) (rd buff 7))).

(** The array index of an out-of-range counter is undefined in C; the
    lookup then yields [None] and the comparison fails. *)
Definition mac_serial_detect_knock_sequence (g : globals) (sector : Z)
  : bool * globals :=
  let mac_serial_knock_sequence := MAC_SERIAL_KNOCK_SEQ in
  if bool_decide (mac_serial_knock_sequence !! Z.to_nat (mac_serial_knock g)
                  = Some sector) then
    let k := uint8 (mac_serial_knock g + 1) in
    if k =? Z.of_nat (length mac_serial_knock_sequence) then (true, set_knock g 0)
    else (false, set_knock g k)
  else (false, set_knock g 0).

(** The channel handler.  [len] is an uninitialised local in the source;
    it is read only after [mac_serial_get_header] has stored into it, so
    its initial value (0 here) is never observed.  The local reassignment
    [tagPtr = blkPtr] has no effect on any buffer.  The result is the
    return value, the globals and the block buffer. *)
Definition mac_serial_magic_sector_io (g : globals) (tagPtr blkPtr : buffer)
    (mode : mac_serial_mode) : bool * globals * buffer :=
  match mode with
  | MAC_SERIAL_READ =>
      let hdr := Z.to_nat MAC_SERIAL_HEADER_LEN in
      let '(fifo', payload, availBytes) :=
        mac_serial_handler (fifo g) (drop hdr blkPtr)
                           (512 - MAC_SERIAL_HEADER_LEN) mode in
      let blkPtr := take hdr blkPtr ++ payload in
      (true, set_fifo g fifo', mac_serial_put_header blkPtr availBytes)
  | MAC_SERIAL_WRITE =>
      let len := 0 in
      let '(headerInTags, len) := mac_serial_get_header tagPtr len in
      let '(accepted, len) :=
        if headerInTags then (true, len) else mac_serial_get_header blkPtr len in
      if accepted then
        let headerSize := if headerInTags then 0 else MAC_SERIAL_HEADER_LEN in
        let len := if len >? 512 - headerSize then 512 - headerSize else len in
        let '(fifo', _, _) :=
          mac_serial_handler (fifo g) (drop (Z.to_nat headerSize) blkPtr) len mode in
        (true, set_fifo g fifo', blkPtr)
      else (false, g, blkPtr)
  end.

(** The loop of step 2 that compares the block with repetitions of the
    request tag: the index of the first byte that differs, if any, among
    the [n] bytes from [i] on.  The source only logs it. *)
Fixpoint magic_sector_mismatch (blkPtr : buffer) (i n : nat) : option nat :=
  match n with
  | O => None
  | S n' =>
      let expected := rd MAC_SERIAL_REQUEST_TAG (Nat.land i 3) in
      let received := rd blkPtr i in
      if negb (expected =? received) then Some i
      else magic_sector_mismatch blkPtr (S i) n'
  end.

(** What one call of [is_mac_serial_io] leaves behind. *)
Record outcome : Set := mkOutcome {
  handled : bool;
  after : globals;
  tags : buffer;
  block : buffer
}.

Definition is_mac_serial_io (g : globals) (drive sector : Z)
    (tagPtr blkPtr : buffer) (mode : mac_serial_mode) : outcome :=
  if sector =? MAC_SERIAL_NEGATIVE_LBA then
    let '(_, g, blkPtr) := mac_serial_magic_sector_io g tagPtr blkPtr mode in
    let g :=
      if negb (state_eqb (mac_serial_state g) MAC_SERIAL_WAIT_MAGIC_SECTOR)
      then set_state g MAC_SERIAL_WAIT_KNOCK else g in
    mkOutcome true g tagPtr blkPtr
  else
    let '(knocked, g) := mac_serial_detect_knock_sequence g sector in
    let '(g, tagPtr) :=
      if knocked then
        let g := set_state g MAC_SERIAL_WAIT_MAGIC_WRITE in
        let g := set_drive g drive in
        let g := set_sector g 0 in
        (g, mac_serial_put_header tagPtr 0)
      else (g, tagPtr) in
    match mac_serial_state g with
    | MAC_SERIAL_WAIT_KNOCK =>
        mkOutcome false g tagPtr blkPtr
    | MAC_SERIAL_WAIT_MAGIC_WRITE =>
        if mode_eqb mode MAC_SERIAL_WRITE && (drive =? mac_serial_drive g) then
          let rejected_at := magic_sector_mismatch blkPtr 0 512 in
          let g := set_sector g sector in
          let g := set_state g MAC_SERIAL_WAIT_MAGIC_READ in
          mkOutcome true g tagPtr blkPtr
        else mkOutcome false g tagPtr blkPtr
    | MAC_SERIAL_WAIT_MAGIC_READ =>
        if mode_eqb mode MAC_SERIAL_READ && (drive =? mac_serial_drive g)
           && (sector =? mac_serial_sector g) then
          let tagPtr := mac_serial_put_header tagPtr 8 in
          let blkPtr := wr blkPtr 0 (rd MAC_SERIAL_REPLY_TAG 0) in
          let blkPtr := wr blkPtr 1 (rd MAC_SERIAL_REPLY_TAG 1) in
          let blkPtr := wr blkPtr 2 (rd MAC_SERIAL_REPLY_TAG 2) in
          let blkPtr := wr blkPtr 3 (rd MAC_SERIAL_REPLY_TAG 3) in
          let blkPtr :=
            wr blkPtr 4 (Z.shiftr (Z.land (mac_serial_sector g) 0xFF000000) 24) in
          let blkPtr :=
            wr blkPtr 5 (Z.shiftr (Z.land (mac_serial_sector g) 0x00FF0000) 16) in
          let blkPtr :=
            wr blkPtr 6 (Z.shiftr (Z.land (mac_serial_sector g) 0x0000FF00) 8) in
          let blkPtr :=
            wr blkPtr 7 (Z.shiftr (Z.land (mac_serial_sector g) 0x000000FF) 0) in
          let g := set_state g MAC_SERIAL_WAIT_MAGIC_SECTOR in
          mkOutcome true g tagPtr blkPtr
        else mkOutcome false g tagPtr blkPtr
    | MAC_SERIAL_WAIT_MAGIC_SECTOR =>
        if (drive =? mac_serial_drive g) && (sector =? mac_serial_sector g) then
          let '(r, g, blkPtr) := mac_serial_magic_sector_io g tagPtr blkPtr mode in
          mkOutcome r g tagPtr blkPtr
        else mkOutcome false g tagPtr blkPtr
    end.

(** ** Sequences of accesses *)

(** One sector access as the disk code issues it. *)
Record access : Set := mkAccess {
  a_drive : Z;
  a_sector : Z;
  a_tags : buffer;
  a_block : buffer;
  a_mode : mac_serial_mode
}.

Definition step (g : globals) (a : access) : outcome :=
  is_mac_serial_io g (a_drive a) (a_sector a) (a_tags a) (a_block a) (a_mode a).

(** The globals after a series of calls, each with its own buffers. *)
Definition run (g : globals) (accs : list access) : globals :=
  fold_left (fun g a => after (step g a)) accs g.

(** ** Definitions used to state the properties *)

(** A buffer decodes as a request header / the length it declares. *)
Definition header_valid (buff : buffer) : bool := fst (mac_serial_get_header buff 0).
Definition header_len (buff : buffer) : Z := snd (mac_serial_get_header buff 0).

(** The twelve bytes of a reply header declaring [len]. *)
Definition reply_header (len : Z) : buffer :=
  [70; 85; 74; 73; 0; 0; len / 256 mod 256; len mod 256; 0; 0; 0; 0].

(** The same twelve bytes with the marker of the other direction. *)
Definition as_request (buff : buffer) : buffer :=
  memcpy buff 0 MAC_SERIAL_REQUEST_TAG 4.

(** Big-endian encoding of a 32 bit value and its inverse. *)
Definition be32 (v : Z) : buffer :=
  [v / 16777216 mod 256; v / 65536 mod 256; v / 256 mod 256; v mod 256].
Definition be32_value (b : buffer) : Z :=
  ((rd b 0 * 256 + rd b 1) * 256 + rd b 2) * 256 + rd b 3.

(** The bytes held by the queue, oldest first. *)
Definition fifo_contents (fb : FifoBuffer) : buffer :=
  take (Z.to_nat (fifoLen fb)) (fifoData fb).

(** The representation invariant of the queue object. *)
Definition fifo_wf (fb : FifoBuffer) : Prop :=
  0 <= fifoLen fb <= FIFO_SIZE /\ length (fifoData fb) = Z.to_nat FIFO_SIZE.

(** The counter indexes the knock array. *)
Definition knock_in_bounds (g : globals) : Prop :=
  0 <= mac_serial_knock g <= 4 /\
  is_Some (MAC_SERIAL_KNOCK_SEQ !! Z.to_nat (mac_serial_knock g)).

(** The session as the knock detection block of [is_mac_serial_io]
    leaves it when the knock completes: ClaimedDrive, the calling drive
    claimed, magic sector zeroed, counter back at 0. *)
Definition rearmed (g : globals) (drive : Z) : globals :=
  set_sector (set_drive (set_state (set_knock g 0) MAC_SERIAL_WAIT_MAGIC_WRITE) drive) 0.

(** The twelve bytes of a request header declaring [len]. *)
Definition request_header (len : Z) : buffer :=
  [78; 68; 69; 86; 0; 0; len / 256 mod 256; len mod 256; 0; 0; 0; 0].

(** A block made of 128 repetitions of the request marker. *)
Definition magic_pattern : buffer := mjoin (replicate 128 [78; 68; 69; 86]).

(** Every cell of a buffer holds a byte. *)
Definition bytes_ok (b : buffer) : Prop := Forall (fun x => 0 <= x < 256) b.

(** What holds of the globals after any series of calls: the queue object
    is well formed, the magic sector is not the sentinel, and it is zero
    while the session waits for the magic write. *)
Definition session_ok (g : globals) : Prop :=
  fifo_wf (fifo g) /\
  mac_serial_sector g <> MAC_SERIAL_NEGATIVE_LBA /\
  (mac_serial_state g = MAC_SERIAL_WAIT_MAGIC_WRITE -> mac_serial_sector g = 0).

(** Peels the first cells off a buffer known to be long enough. *)
Ltac peel b H :=
  repeat (destruct b as [| ? b]; [simpl in H; lia |]).

(** ** Sanity checks of the embedding *)

Example get_header_request :
  mac_serial_get_header [78; 68; 69; 86; 0; 0; 1; 2; 0; 0; 0; 0] 0 = (true, 258).
Proof. reflexivity. Qed.

Example put_header_258 :
  mac_serial_put_header (replicate 12 9) 258 = reply_header 258.
Proof. reflexivity. Qed.

Example knock_by_reads :
  mac_serial_state
    (run globals_init
       (map (fun s => mkAccess 1 s (replicate 12 0) (replicate 512 0) MAC_SERIAL_READ)
            [0; 70; 85; 74; 73]))
  = MAC_SERIAL_WAIT_MAGIC_WRITE.
Proof. vm_compute. reflexivity. Qed.

(** A whole handshake on drive 1 with magic sector 500, then three bytes
    written through the channel and read back by the loopback queue. *)
Example loopback_session :
  let acc s m b := mkAccess 1 s (replicate 12 0) b m in
  let zero := replicate 512 0 in
  let g := run globals_init
             (map (fun s => acc s MAC_SERIAL_READ zero) [0; 70; 85; 74; 73]
              ++ [acc 500 MAC_SERIAL_WRITE zero;
                  acc 500 MAC_SERIAL_READ zero;
                  acc 500 MAC_SERIAL_WRITE
                    ([78; 68; 69; 86; 0; 0; 0; 3; 0; 0; 0; 0; 11; 22; 33]
                     ++ replicate 497 0)]) in
  let o := step g (acc 500 MAC_SERIAL_READ zero) in
  mac_serial_state g = MAC_SERIAL_WAIT_MAGIC_SECTOR /\
  fifo_contents (fifo g) = [11; 22; 33] /\
  handled o = true /\
  take 15 (block o) = reply_header 3 ++ [11; 22; 33] /\
  fifo_contents (fifo (after o)) = [].
Proof. vm_compute. repeat split. Qed.

(** ** Machine arithmetic *)

Section Arith.

Lemma land_255 z : Z.land z 0xFF = z mod 256.
Proof. change 0xFF with (Z.ones 8). now rewrite Z.land_ones by lia. Qed.

Lemma UINT16_HI_BYTE_div z : UINT16_HI_BYTE z = z / 256 mod 256.
Proof.
  unfold UINT16_HI_BYTE. rewrite land_255, Z.shiftr_div_pow2 by lia.
  reflexivity.
Qed.

Lemma UINT16_LO_BYTE_mod z : UINT16_LO_BYTE z = z mod 256.
Proof. apply land_255. Qed.

Lemma uint8_idem z : uint8 (z mod 256) = z mod 256.
Proof. unfold uint8. apply Z.mod_mod. lia. Qed.

Lemma lor_shiftl_8 hi lo :
  0 <= lo < 256 -> Z.lor (Z.shiftl hi 8) lo = hi * 256 + lo.
Proof.
  intros Hlo. rewrite Z.shiftl_mul_pow2 by lia. change (2 ^ 8) with 256.
  rewrite <- Z.lxor_lor, <- Z.add_nocarry_lxor; try reflexivity.
  all: apply Z.bits_inj'; intros k Hk; rewrite Z.land_spec, Z.bits_0.
  all: destruct (Z.ltb_spec k 8) as [Hlt | Hge].
  all: try (replace (hi * 256) with (hi * 2 ^ 8) by reflexivity;
            rewrite Z.mul_pow2_bits_low by lia; reflexivity).
  all: replace lo with (lo mod 2 ^ 8) by (apply Z.mod_small; simpl; lia).
  all: rewrite Z.mod_pow2_bits_high by lia; apply andb_false_r.
Qed.

Lemma CHARS_TO_UINT16_bytes a b :
  0 <= a < 256 -> 0 <= b < 256 -> CHARS_TO_UINT16 a b = a * 256 + b.
Proof.
  intros Ha Hb. unfold CHARS_TO_UINT16, uint16.
  rewrite !Z.mod_small by lia. rewrite land_255, Z.mod_small by lia.
  now apply lor_shiftl_8.
Qed.

(** The length field of the header holds a 16 bit value exactly. *)
Lemma length_field_roundtrip len :
  is_uint16 len ->
  uint16 (CHARS_TO_UINT16 (len / 256 mod 256) (len mod 256)) = len.
Proof.
  intros Hlen. unfold is_uint16 in Hlen.
  rewrite CHARS_TO_UINT16_bytes by (apply Z.mod_pos_bound; lia).
  assert (Hhi : len / 256 mod 256 = len / 256).
  { apply Z.mod_small. split; [apply Z.div_pos; lia |].
    apply Z.div_lt_upper_bound; lia. }
  rewrite Hhi. unfold uint16.
  rewrite Z.mul_comm, <- Z.div_mod by lia.
  apply Z.mod_small; lia.
Qed.

Lemma sector_byte v (sh : Z) (mask : Z) :
  0 <= sh -> Z.shiftr mask sh = 0xFF ->
  Z.shiftr (Z.land v mask) sh = v / 2 ^ sh mod 256.
Proof.
  intros Hsh Hmask.
  rewrite Z.shiftr_land, Hmask, land_255, Z.shiftr_div_pow2 by lia.
  reflexivity.
Qed.

Lemma be32_value_be32 v : is_uint32 v -> be32_value (be32 v) = v.
Proof.
  unfold is_uint32, be32_value, be32, rd. simpl. intros Hv.
  Z.div_mod_to_equations. lia.
Qed.

End Arith.

(** ** Header codec *)

Section HeaderCodec.

Lemma put_header_bytes buff len :
  (12 <= length buff)%nat ->
  mac_serial_put_header buff len = reply_header len ++ drop 12 buff.
Proof.
  intros H. peel buff H.
  unfold mac_serial_put_header, wr, reply_header.
  rewrite UINT16_HI_BYTE_div, UINT16_LO_BYTE_mod, !uint8_idem.
  reflexivity.
Qed.

Lemma put_header_length buff len :
  length (mac_serial_put_header buff len) = length buff.
Proof.
  unfold mac_serial_put_header, wr. cbv zeta.
  now rewrite !length_insert.
Qed.

Lemma get_header_cases buff l :
  mac_serial_get_header buff l =
    if header_valid buff then (true, header_len buff) else (false, l).
Proof.
  unfold header_valid, header_len, mac_serial_get_header.
  now destruct (negb _).
Qed.

(** A buffer that starts with the reply marker is refused by the decoder. *)
Lemma reply_marker_refused len rest l :
  mac_serial_get_header (reply_header len ++ rest) l = (false, l).
Proof. reflexivity. Qed.

Lemma as_request_reply_header len rest :
  as_request (reply_header len ++ rest)
  = [78; 68; 69; 86; 0; 0; len / 256 mod 256; len mod 256; 0; 0; 0; 0] ++ rest.
Proof. reflexivity. Qed.

End HeaderCodec.

(** C1, as stated, fails: the encoder writes the reply marker ("FUJI"),
    the decoder accepts only the request marker ("NDEV"), so the buffer
    produced by encoding length 5 is refused and 5 is not recovered. *)
Lemma header_roundtrip_refused :
  mac_serial_get_header (mac_serial_put_header (replicate 12 0) 5) 0 <> (true, 5).
Proof. vm_compute. discriminate. Qed.

(** C1 (amended): for every length in [0, 65535] and every buffer of at
    least 12 bytes, decoding the buffer produced by encoding that length
    is refused (invalid, the out-parameter keeps its value), because it
    carries the reply marker; the length field itself round-trips: once
    the first four bytes are replaced by the request marker, decoding
    yields (true, length). *)
Theorem header_codec_roundtrip (buff : buffer) (len l0 : Z) :
  is_uint16 len ->
  (12 <= length buff)%nat ->
  let encoded := mac_serial_put_header buff len in
  mac_serial_get_header encoded l0 = (false, l0) /\
  mac_serial_get_header (as_request encoded) l0 = (true, len).
Proof.
  intros Hlen Hbuf encoded. subst encoded.
  rewrite put_header_bytes by assumption. split.
  - apply reply_marker_refused.
  - rewrite as_request_reply_header.
    unfold mac_serial_get_header. simpl negb. cbv iota.
    f_equal. change (rd _ 6) with (len / 256 mod 256).
    change (rd _ 7) with (len mod 256).
    now apply length_field_roundtrip.
Qed.

Lemma header_codec_roundtrip_witness :
  let encoded := mac_serial_put_header (replicate 12 0) 51966 in
  mac_serial_get_header encoded 7 = (false, 7) /\
  mac_serial_get_header (as_request encoded) 7 = (true, 51966).
Proof.
  apply (header_codec_roundtrip (replicate 12 0) 51966 7).
  - unfold is_uint16. lia.
  - simpl. lia.
Defined.

(** ** Knock detection *)

Section Knock.

(** Detection touches no global but the counter. *)
Lemma detect_knock_frame g sector :
  exists k, snd (mac_serial_detect_knock_sequence g sector) = set_knock g k.
Proof.
  unfold mac_serial_detect_knock_sequence.
  destruct (bool_decide _); [destruct (_ =? _) |]; eauto.
Qed.

Lemma detect_knock_miss g sector :
  MAC_SERIAL_KNOCK_SEQ !! Z.to_nat (mac_serial_knock g) <> Some sector ->
  mac_serial_detect_knock_sequence g sector = (false, set_knock g 0).
Proof.
  intros H. unfold mac_serial_detect_knock_sequence.
  now rewrite bool_decide_eq_false_2.
Qed.

Lemma detect_knock_complete g :
  mac_serial_knock g = 4 ->
  mac_serial_detect_knock_sequence g 73 = (true, set_knock g 0).
Proof.
  intros H. unfold mac_serial_detect_knock_sequence. rewrite H. reflexivity.
Qed.

(** An index in bounds before the call is in bounds after it. *)
Lemma detect_knock_in_bounds g sector :
  knock_in_bounds g ->
  knock_in_bounds (snd (mac_serial_detect_knock_sequence g sector)).
Proof.
  intros [Hk _]. unfold mac_serial_detect_knock_sequence.
  assert (Hzero : forall g0, knock_in_bounds (set_knock g0 0)).
  { intros g0. split; simpl; [lia | eauto]. }
  destruct (bool_decide _); [| apply Hzero].
  destruct (_ =? _) eqn:E; [apply Hzero |].
  apply Z.eqb_neq in E. simpl in E.
  assert (Hcases : mac_serial_knock g = 0 \/ mac_serial_knock g = 1 \/
                   mac_serial_knock g = 2 \/ mac_serial_knock g = 3 \/
                   mac_serial_knock g = 4) by lia.
  destruct Hcases as [H | [H | [H | [H | H]]]]; rewrite H in E |- *;
    try (exfalso; apply E; reflexivity);
    (split; [vm_compute; split; discriminate | vm_compute; eauto]).
Qed.

End Knock.

(** ** Channel handler *)

Section ChannelHandler.

Lemma set_fifo_same g : set_fifo g (fifo g) = g.
Proof. now destruct g. Qed.

(** The handler touches no global but the queue. *)
Lemma magic_sector_io_frame g tagPtr blkPtr mode :
  exists f,
    snd (fst (mac_serial_magic_sector_io g tagPtr blkPtr mode)) = set_fifo g f.
Proof.
  unfold mac_serial_magic_sector_io. destruct mode.
  - destruct (mac_serial_handler _ _ _ _) as [[f p] n]. now exists f.
  - destruct (mac_serial_get_header tagPtr 0) as [inTags len].
    destruct inTags.
    + destruct (mac_serial_handler _ _ _ _) as [[f p] n]. now exists f.
    + destruct (mac_serial_get_header blkPtr len) as [ok len']. destruct ok.
      * destruct (mac_serial_handler _ _ _ _) as [[f p] n]. now exists f.
      * exists (fifo g). simpl. now rewrite set_fifo_same.
Qed.

End ChannelHandler.

(** ** The handshake state machine *)

Section Handshake.

Lemma not_sentinel sector :
  sector <> MAC_SERIAL_NEGATIVE_LBA -> (sector =? MAC_SERIAL_NEGATIVE_LBA) = false.
Proof. apply Z.eqb_neq. Qed.

(** C5. Sentinel routing: an access at the sentinel address, in every
    phase and for every drive, buffer pair and direction, hands the
    buffers to the channel handler (the block and the queue are those the
    handler leaves, the tags are untouched) and returns true whatever the
    handler returned; afterwards the phase is Active if it was Active and
    Idle otherwise; counter, claimed drive and magic sector keep their
    values. *)
Theorem sentinel_routing (g : globals) (drive : Z) (tagPtr blkPtr : buffer)
    (mode : mac_serial_mode) :
  let o := is_mac_serial_io g drive MAC_SERIAL_NEGATIVE_LBA tagPtr blkPtr mode in
  let '(_, g1, blk1) := mac_serial_magic_sector_io g tagPtr blkPtr mode in
  handled o = true /\
  tags o = tagPtr /\ block o = blk1 /\ fifo (after o) = fifo g1 /\
  mac_serial_state (after o) =
    (if state_eqb (mac_serial_state g) MAC_SERIAL_WAIT_MAGIC_SECTOR
     then MAC_SERIAL_WAIT_MAGIC_SECTOR else MAC_SERIAL_WAIT_KNOCK) /\
  mac_serial_knock (after o) = mac_serial_knock g /\
  mac_serial_drive (after o) = mac_serial_drive g /\
  mac_serial_sector (after o) = mac_serial_sector g.
Proof.
  unfold is_mac_serial_io. rewrite Z.eqb_refl.
  destruct (magic_sector_io_frame g tagPtr blkPtr mode) as [f Hframe].
  destruct (mac_serial_magic_sector_io g tagPtr blkPtr mode) as [[r g1] blk1].
  simpl in Hframe. subst g1. cbv zeta. simpl.
  destruct (mac_serial_state g) eqn:E; simpl; repeat split; reflexivity || assumption.
Qed.

(** C6. Idle no-op: in Idle, an access whose sector is neither the
    sentinel nor the next expected knock address returns false and leaves
    the tag buffer and the block buffer as they were (the phase stays Idle
    and the knock progress is 0). *)
Theorem idle_no_op (g : globals) (drive sector : Z) (tagPtr blkPtr : buffer)
    (mode : mac_serial_mode) :
  mac_serial_state g = MAC_SERIAL_WAIT_KNOCK ->
  sector <> MAC_SERIAL_NEGATIVE_LBA ->
  MAC_SERIAL_KNOCK_SEQ !! Z.to_nat (mac_serial_knock g) <> Some sector ->
  let o := is_mac_serial_io g drive sector tagPtr blkPtr mode in
  handled o = false /\ tags o = tagPtr /\ block o = blkPtr /\
  mac_serial_state (after o) = MAC_SERIAL_WAIT_KNOCK /\
  mac_serial_knock (after o) = 0.
Proof.
  intros Hidle Hsent Hmiss. unfold is_mac_serial_io.
  rewrite not_sentinel, detect_knock_miss by assumption.
  simpl. rewrite Hidle. simpl. now rewrite Hidle.
Qed.

Lemma idle_no_op_witness :
  let o := is_mac_serial_io globals_init 1 1234 (replicate 12 5) (replicate 512 6)
             MAC_SERIAL_WRITE in
  handled o = false /\ tags o = replicate 12 5 /\ block o = replicate 512 6 /\
  mac_serial_state (after o) = MAC_SERIAL_WAIT_KNOCK /\
  mac_serial_knock (after o) = 0.
Proof.
  apply (idle_no_op globals_init 1 1234 (replicate 12 5) (replicate 512 6)
           MAC_SERIAL_WRITE).
  - reflexivity.
  - vm_compute. discriminate.
  - vm_compute. discriminate.
Defined.

(** C3. ClaimedDrive leniency: in ClaimedDrive, a write on the claimed
    drive whose sector is not the sentinel and does not complete a knock
    is accepted whatever the block holds: the call returns true, the
    sector becomes the magic sector, the phase becomes SectorPending, and
    neither buffer nor the queue is touched. *)
Theorem claimed_drive_accepts_any_write (g : globals) (drive sector : Z)
    (tagPtr blkPtr : buffer) :
  mac_serial_state g = MAC_SERIAL_WAIT_MAGIC_WRITE ->
  drive = mac_serial_drive g ->
  sector <> MAC_SERIAL_NEGATIVE_LBA ->
  fst (mac_serial_detect_knock_sequence g sector) = false ->
  let o := is_mac_serial_io g drive sector tagPtr blkPtr MAC_SERIAL_WRITE in
  handled o = true /\
  mac_serial_sector (after o) = sector /\
  mac_serial_state (after o) = MAC_SERIAL_WAIT_MAGIC_READ /\
  mac_serial_drive (after o) = mac_serial_drive g /\
  fifo (after o) = fifo g /\
  tags o = tagPtr /\ block o = blkPtr.
Proof.
  intros Hst Hdrive Hsent Hknock. unfold is_mac_serial_io.
  rewrite not_sentinel by assumption.
  destruct (detect_knock_frame g sector) as [k Hframe].
  destruct (mac_serial_detect_knock_sequence g sector) as [knocked g1].
  simpl in Hknock, Hframe. subst knocked g1. simpl.
  rewrite Hst. simpl. rewrite <- Hdrive, Z.eqb_refl. simpl.
  repeat split; reflexivity || (symmetry; assumption).
Qed.

Lemma claimed_drive_accepts_any_write_witness :
  let g := mkGlobals MAC_SERIAL_WAIT_MAGIC_WRITE 0 3 0 fifo_init in
  let o := is_mac_serial_io g 3 4711 (replicate 12 0) (replicate 512 255)
             MAC_SERIAL_WRITE in
  handled o = true /\
  mac_serial_sector (after o) = 4711 /\
  mac_serial_state (after o) = MAC_SERIAL_WAIT_MAGIC_READ /\
  mac_serial_drive (after o) = 3 /\
  fifo (after o) = fifo_init /\
  tags o = replicate 12 0 /\ block o = replicate 512 255.
Proof.
  apply (claimed_drive_accepts_any_write
           (mkGlobals MAC_SERIAL_WAIT_MAGIC_WRITE 0 3 0 fifo_init) 3 4711
           (replicate 12 0) (replicate 512 255)).
  - reflexivity.
  - reflexivity.
  - vm_compute. discriminate.
  - reflexivity.
Defined.

End Handshake.

(** ** The knock counter across calls *)

Section KnockCounter.

(** Only the knock detection writes the counter, and the sentinel path
    returns before it runs. *)
Lemma knock_after_call g drive sector tagPtr blkPtr mode :
  mac_serial_knock (after (is_mac_serial_io g drive sector tagPtr blkPtr mode))
  = if sector =? MAC_SERIAL_NEGATIVE_LBA then mac_serial_knock g
    else mac_serial_knock (snd (mac_serial_detect_knock_sequence g sector)).
Proof.
  unfold is_mac_serial_io. destruct (sector =? MAC_SERIAL_NEGATIVE_LBA).
  - destruct (magic_sector_io_frame g tagPtr blkPtr mode) as [f Hf].
    destruct (mac_serial_magic_sector_io g tagPtr blkPtr mode) as [[r g1] b1].
    simpl in Hf. subst g1. now destruct (negb _).
  - destruct (detect_knock_frame g sector) as [k Hk].
    destruct (mac_serial_detect_knock_sequence g sector) as [knocked g1].
    simpl in Hk. subst g1. simpl snd.
    destruct knocked; simpl.
    + destruct (andb _ _); reflexivity.
    + destruct (mac_serial_state g); simpl; try reflexivity;
        try (destruct (andb _ _); reflexivity).
      destruct (andb _ _); [| reflexivity].
      destruct (magic_sector_io_frame (set_knock g k) tagPtr blkPtr mode) as [f Hf].
      destruct (mac_serial_magic_sector_io _ tagPtr blkPtr mode) as [[r g3] b3].
      simpl in Hf. now subst g3.
Qed.

Lemma call_keeps_knock_in_bounds g a :
  knock_in_bounds g -> knock_in_bounds (after (step g a)).
Proof.
  intros Hg. unfold step, knock_in_bounds.
  rewrite knock_after_call. destruct (_ =? _); [exact Hg |].
  now apply detect_knock_in_bounds.
Qed.

Lemma run_keeps_knock_in_bounds g accs :
  knock_in_bounds g -> knock_in_bounds (run g accs).
Proof.
  revert g. induction accs as [| a accs IH]; intros g Hg; [exact Hg |].
  simpl. apply IH. now apply call_keeps_knock_in_bounds.
Qed.

(** C10. Knock counter bounds: starting from the initial value 0, before
    and after every call of [is_mac_serial_io], whatever the accesses
    were, the counter lies in [0, 4] and indexes an element of the
    5-element knock array. *)
Theorem knock_counter_in_bounds (accs : list access) (a : access) :
  knock_in_bounds (run globals_init accs) /\
  knock_in_bounds (after (step (run globals_init accs) a)).
Proof.
  assert (H0 : knock_in_bounds globals_init).
  { split; simpl; [lia | eauto]. }
  split.
  - now apply run_keeps_knock_in_bounds.
  - now apply call_keeps_knock_in_bounds, run_keeps_knock_in_bounds.
Qed.

End KnockCounter.

(** ** Completing the knock *)

Section KnockCompletion.

(** The call that presents the last knock address, in any phase. *)
Lemma knock_completing_call g drive tagPtr blkPtr mode :
  mac_serial_knock g = 4 ->
  is_mac_serial_io g drive 73 tagPtr blkPtr mode =
    match mode with
    | MAC_SERIAL_READ =>
        mkOutcome false (rearmed g drive) (mac_serial_put_header tagPtr 0) blkPtr
    | MAC_SERIAL_WRITE =>
        mkOutcome true
          (set_state (set_sector (rearmed g drive) 73) MAC_SERIAL_WAIT_MAGIC_READ)
          (mac_serial_put_header tagPtr 0) blkPtr
    end.
Proof.
  intros Hk. unfold is_mac_serial_io.
  rewrite not_sentinel by (vm_compute; discriminate).
  rewrite detect_knock_complete by assumption. simpl.
  destruct mode; simpl; [reflexivity |].
  now rewrite Z.eqb_refl.
Qed.

(** A call in Idle that does not complete the knock only moves the
    counter. *)
Lemma idle_call g drive sector tagPtr blkPtr mode :
  mac_serial_state g = MAC_SERIAL_WAIT_KNOCK ->
  sector <> MAC_SERIAL_NEGATIVE_LBA ->
  fst (mac_serial_detect_knock_sequence g sector) = false ->
  is_mac_serial_io g drive sector tagPtr blkPtr mode =
    mkOutcome false (snd (mac_serial_detect_knock_sequence g sector)) tagPtr blkPtr.
Proof.
  intros Hst Hsent Hknock. unfold is_mac_serial_io.
  rewrite not_sentinel by assumption.
  destruct (detect_knock_frame g sector) as [k Hframe].
  destruct (mac_serial_detect_knock_sequence g sector) as [knocked g1].
  simpl in Hknock, Hframe. subst knocked g1. simpl. now rewrite Hst.
Qed.

(** C9. A write that presents the last knock address (73) with the
    counter at 4 completes the knock and is consumed as the magic write
    in the same call, in every phase: the detection re-arms the session
    (ClaimedDrive, calling drive claimed) and writes the zero-length reply
    header into the tags; the rest of the call is exactly a magic write
    on the re-armed session, so the call returns true, the phase ends in
    SectorPending and the magic sector is 73. *)
Theorem knock_completing_write_coalesces (g : globals) (drive : Z)
    (tagPtr blkPtr : buffer) :
  mac_serial_knock g = 4 ->
  let o := is_mac_serial_io g drive 73 tagPtr blkPtr MAC_SERIAL_WRITE in
  fst (mac_serial_detect_knock_sequence g 73) = true /\
  mac_serial_state (rearmed g drive) = MAC_SERIAL_WAIT_MAGIC_WRITE /\
  o = is_mac_serial_io (rearmed g drive) drive 73
        (mac_serial_put_header tagPtr 0) blkPtr MAC_SERIAL_WRITE /\
  handled o = true /\
  mac_serial_state (after o) = MAC_SERIAL_WAIT_MAGIC_READ /\
  mac_serial_sector (after o) = 73 /\
  mac_serial_drive (after o) = drive /\
  mac_serial_knock (after o) = 0 /\
  block o = blkPtr /\
  tags o = mac_serial_put_header tagPtr 0 /\
  ((12 <= length tagPtr)%nat -> tags o = reply_header 0 ++ drop 12 tagPtr).
Proof.
  intros Hk o. subst o. rewrite knock_completing_call by assumption.
  rewrite detect_knock_complete by assumption.
  repeat split; try reflexivity.
  - unfold is_mac_serial_io.
    rewrite not_sentinel by (vm_compute; discriminate).
    rewrite detect_knock_miss by (simpl; discriminate).
    simpl. now rewrite Z.eqb_refl.
  - intros Hlen. simpl. now apply put_header_bytes.
Qed.

Lemma knock_completing_write_coalesces_witness :
  let g := mkGlobals MAC_SERIAL_WAIT_KNOCK 4 0 0 fifo_init in
  let o := is_mac_serial_io g 2 73 (replicate 12 1) (replicate 512 0)
             MAC_SERIAL_WRITE in
  handled o = true /\
  mac_serial_state (after o) = MAC_SERIAL_WAIT_MAGIC_READ /\
  mac_serial_sector (after o) = 73 /\
  tags o = reply_header 0.
Proof.
  assert (Hk : mac_serial_knock (mkGlobals MAC_SERIAL_WAIT_KNOCK 4 0 0 fifo_init) = 4)
    by reflexivity.
  destruct (knock_completing_write_coalesces
              (mkGlobals MAC_SERIAL_WAIT_KNOCK 4 0 0 fifo_init) 2
              (replicate 12 1) (replicate 512 0) Hk) as
    (_ & _ & _ & Hh & Hst & Hsec & _ & _ & _ & _ & Htags).
  split; [exact Hh |]. split; [exact Hst |]. split; [exact Hsec |].
  rewrite Htags by (simpl; lia). reflexivity.
Defined.

End KnockCompletion.

(** ** The knock sequence over consecutive calls *)

Section KnockSequence.

(** C2, as stated, fails in each of its three parts.  From the initial
    session: (1) the five knock addresses presented by write accesses
    leave the session in SectorPending, not ClaimedDrive; (2) with the
    progress at 2, an access at the sentinel address differs from the
    expected 85 and yet leaves the progress at 2; (3) after the partial
    prefix 0, 70 the full sequence 0, 70, 85, 74, 73 does not complete the
    knock: the session is still Idle. *)
Lemma knock_detection_counterexample :
  let rd_ s := mkAccess 1 s (replicate 12 0) (replicate 512 0) MAC_SERIAL_READ in
  let wr_ s := mkAccess 1 s (replicate 12 0) (replicate 512 0) MAC_SERIAL_WRITE in
  mac_serial_state (run globals_init (map wr_ [0; 70; 85; 74; 73]))
    <> MAC_SERIAL_WAIT_MAGIC_WRITE /\
  (mac_serial_knock (run globals_init (map rd_ [0; 70])) = 2 /\
   MAC_SERIAL_KNOCK_SEQ !! 2%nat <> Some MAC_SERIAL_NEGATIVE_LBA /\
   mac_serial_knock (run globals_init (map rd_ [0; 70; MAC_SERIAL_NEGATIVE_LBA]))
     <> 0) /\
  mac_serial_state (run globals_init (map rd_ ([0; 70] ++ [0; 70; 85; 74; 73])))
    <> MAC_SERIAL_WAIT_MAGIC_WRITE.
Proof. vm_compute. repeat split; discriminate. Qed.

(** The restart that the knock detection misses, for every proper
    non-empty prefix: the first address 0 of the restart is taken as a
    mismatch, which resets the counter without counting the 0 itself. *)
Example knock_restart_missed :
  let rd_ s := mkAccess 1 s (replicate 12 0) (replicate 512 0) MAC_SERIAL_READ in
  forallb (fun n =>
      state_eqb
        (mac_serial_state
           (run globals_init
              (map rd_ (take n MAC_SERIAL_KNOCK_SEQ ++ MAC_SERIAL_KNOCK_SEQ))))
        MAC_SERIAL_WAIT_KNOCK)
    [1; 2; 3; 4]%nat = true.
Proof. vm_compute. reflexivity. Qed.

(** C2 (amended).  From Idle with knock progress 0, the addresses 0, 70,
    85, 74, 73 on five consecutive calls (any drives, buffers and
    directions) complete the knock: the last call claims its drive, and
    the session is in ClaimedDrive if that call is a read, in
    SectorPending (the write taken as the magic write) if it is a write.
    A call whose address is not the sentinel and differs from the next
    expected element resets the progress to 0; a call at the sentinel
    leaves the progress as it is. *)
Theorem knock_detection :
  (forall (g : globals) (a1 a2 a3 a4 a5 : access),
     mac_serial_state g = MAC_SERIAL_WAIT_KNOCK ->
     mac_serial_knock g = 0 ->
     map a_sector [a1; a2; a3; a4; a5] = [0; 70; 85; 74; 73] ->
     let g' := run g [a1; a2; a3; a4; a5] in
     mac_serial_state g' =
       match a_mode a5 with
       | MAC_SERIAL_READ => MAC_SERIAL_WAIT_MAGIC_WRITE
       | MAC_SERIAL_WRITE => MAC_SERIAL_WAIT_MAGIC_READ
       end /\
     mac_serial_drive g' = a_drive a5 /\
     mac_serial_knock g' = 0) /\
  (forall (g : globals) (drive sector : Z) (tagPtr blkPtr : buffer)
          (mode : mac_serial_mode),
     sector <> MAC_SERIAL_NEGATIVE_LBA ->
     MAC_SERIAL_KNOCK_SEQ !! Z.to_nat (mac_serial_knock g) <> Some sector ->
     mac_serial_knock (after (is_mac_serial_io g drive sector tagPtr blkPtr mode))
     = 0) /\
  (forall (g : globals) (drive : Z) (tagPtr blkPtr : buffer)
          (mode : mac_serial_mode),
     mac_serial_knock
       (after (is_mac_serial_io g drive MAC_SERIAL_NEGATIVE_LBA tagPtr blkPtr mode))
     = mac_serial_knock g).
Proof.
  split; [| split].
  - intros g [d1 s1 t1 b1 m1] [d2 s2 t2 b2 m2] [d3 s3 t3 b3 m3]
           [d4 s4 t4 b4 m4] [d5 s5 t5 b5 m5] Hst Hk Hsec.
    simpl in Hsec. injection Hsec as -> -> -> -> ->.
    destruct g as [st k d s f]. simpl in Hst, Hk. subst st k.
    unfold run, step. cbn [fold_left a_drive a_sector a_tags a_block a_mode].
    rewrite (idle_call _ d1 0) by (reflexivity || (vm_compute; discriminate)).
    cbn [after].
    rewrite (idle_call _ d2 70) by (reflexivity || (vm_compute; discriminate)).
    cbn [after].
    rewrite (idle_call _ d3 85) by (reflexivity || (vm_compute; discriminate)).
    cbn [after].
    rewrite (idle_call _ d4 74) by (reflexivity || (vm_compute; discriminate)).
    cbn [after].
    rewrite knock_completing_call by reflexivity.
    destruct m5; repeat split.
  - intros g drive sector tagPtr blkPtr mode Hsent Hmiss.
    rewrite knock_after_call, not_sentinel, detect_knock_miss by assumption.
    reflexivity.
  - intros g drive tagPtr blkPtr mode.
    rewrite knock_after_call. now rewrite Z.eqb_refl.
Qed.

Lemma knock_detection_witness :
  let acc s m := mkAccess 1 s (replicate 12 0) (replicate 512 0) m in
  mac_serial_state
    (run globals_init
       [acc 0 MAC_SERIAL_READ; acc 70 MAC_SERIAL_READ; acc 85 MAC_SERIAL_READ;
        acc 74 MAC_SERIAL_READ; acc 73 MAC_SERIAL_READ])
  = MAC_SERIAL_WAIT_MAGIC_WRITE /\
  mac_serial_knock
    (after (is_mac_serial_io (set_knock globals_init 3) 1 70 (replicate 12 0)
              (replicate 512 0) MAC_SERIAL_READ)) = 0.
Proof.
  destruct knock_detection as (Hseq & Hreset & _). split.
  - apply (Hseq globals_init
             (mkAccess 1 0 (replicate 12 0) (replicate 512 0) MAC_SERIAL_READ)
             (mkAccess 1 70 (replicate 12 0) (replicate 512 0) MAC_SERIAL_READ)
             (mkAccess 1 85 (replicate 12 0) (replicate 512 0) MAC_SERIAL_READ)
             (mkAccess 1 74 (replicate 12 0) (replicate 512 0) MAC_SERIAL_READ)
             (mkAccess 1 73 (replicate 12 0) (replicate 512 0) MAC_SERIAL_READ));
      reflexivity.
  - apply Hreset; vm_compute; discriminate.
Defined.

End KnockSequence.

(** ** SectorPending *)

Section SectorPending.

Lemma confirm_block blkPtr (sector : Z) :
  (8 <= length blkPtr)%nat ->
  wr (wr (wr (wr (wr (wr (wr (wr blkPtr 0 (rd MAC_SERIAL_REPLY_TAG 0))
                                 1 (rd MAC_SERIAL_REPLY_TAG 1))
                             2 (rd MAC_SERIAL_REPLY_TAG 2))
                         3 (rd MAC_SERIAL_REPLY_TAG 3))
                     4 (Z.shiftr (Z.land sector 0xFF000000) 24))
                 5 (Z.shiftr (Z.land sector 0x00FF0000) 16))
             6 (Z.shiftr (Z.land sector 0x0000FF00) 8))
         7 (Z.shiftr (Z.land sector 0x000000FF) 0)
  = [70; 85; 74; 73] ++ be32 sector ++ drop 8 blkPtr.
Proof.
  intros H. peel blkPtr H.
  rewrite (sector_byte sector 24), (sector_byte sector 16),
          (sector_byte sector 8), (sector_byte sector 0) by (lia || reflexivity).
  unfold wr. rewrite !uint8_idem. unfold be32.
  change (2 ^ 24) with 16777216. change (2 ^ 16) with 65536.
  change (2 ^ 8) with 256. change (2 ^ 0) with 1. rewrite Z.div_1_r.
  reflexivity.
Qed.

(** C4, as stated, fails in both halves.  (1) A session reached from the
    initial one that is in SectorPending with magic sector 73 on drive 1
    and knock progress 4: the read of the remembered sector on the claimed
    drive completes a knock, returns false and leaves the phase in
    ClaimedDrive instead of Active.  (2) In SectorPending an access at the
    sentinel, which is not the confirming read, returns true and moves the
    phase to Idle. *)
Lemma sector_pending_counterexample :
  let acc s m := mkAccess 1 s (replicate 12 0) (replicate 512 0) m in
  let g := run globals_init
             (map (fun s => acc s MAC_SERIAL_READ) [0; 70; 85; 74]
              ++ [acc 73 MAC_SERIAL_WRITE]
              ++ map (fun s => acc s MAC_SERIAL_READ) [0; 70; 85; 74]) in
  (mac_serial_state g = MAC_SERIAL_WAIT_MAGIC_READ /\
   mac_serial_drive g = 1 /\ mac_serial_sector g = 73 /\
   handled (step g (acc 73 MAC_SERIAL_READ)) = false /\
   mac_serial_state (after (step g (acc 73 MAC_SERIAL_READ)))
     = MAC_SERIAL_WAIT_MAGIC_WRITE) /\
  (handled (step g (acc MAC_SERIAL_NEGATIVE_LBA MAC_SERIAL_WRITE)) = true /\
   mac_serial_state (after (step g (acc MAC_SERIAL_NEGATIVE_LBA MAC_SERIAL_WRITE)))
     = MAC_SERIAL_WAIT_KNOCK).
Proof. vm_compute. repeat split. Qed.

(** C4 (amended).  In SectorPending, for an access whose sector is not
    the sentinel and which does not complete a knock: a read on the
    claimed drive at the remembered magic sector writes a reply header
    with length 8 into the tag buffer, sets block bytes 0-3 to the reply
    marker and bytes 4-7 to the big-endian encoding of the remembered
    sector, leaves the rest of the block, advances the phase to Active and
    returns true; any other such access returns false and leaves the
    phase and both buffers unchanged. *)
Theorem sector_pending_confirmation (g : globals) (drive sector : Z)
    (tagPtr blkPtr : buffer) (mode : mac_serial_mode) :
  mac_serial_state g = MAC_SERIAL_WAIT_MAGIC_READ ->
  sector <> MAC_SERIAL_NEGATIVE_LBA ->
  fst (mac_serial_detect_knock_sequence g sector) = false ->
  (12 <= length tagPtr)%nat ->
  length blkPtr = 512%nat ->
  is_uint32 (mac_serial_sector g) ->
  let o := is_mac_serial_io g drive sector tagPtr blkPtr mode in
  (mode = MAC_SERIAL_READ /\ drive = mac_serial_drive g /\
   sector = mac_serial_sector g ->
     handled o = true /\
     mac_serial_state (after o) = MAC_SERIAL_WAIT_MAGIC_SECTOR /\
     tags o = reply_header 8 ++ drop 12 tagPtr /\
     block o = [70; 85; 74; 73] ++ be32 (mac_serial_sector g) ++ drop 8 blkPtr /\
     be32_value (be32 (mac_serial_sector g)) = mac_serial_sector g /\
     mac_serial_drive (after o) = mac_serial_drive g /\
     mac_serial_sector (after o) = mac_serial_sector g) /\
  (~ (mode = MAC_SERIAL_READ /\ drive = mac_serial_drive g /\
      sector = mac_serial_sector g) ->
     handled o = false /\
     mac_serial_state (after o) = MAC_SERIAL_WAIT_MAGIC_READ /\
     tags o = tagPtr /\ block o = blkPtr /\
     mac_serial_drive (after o) = mac_serial_drive g /\
     mac_serial_sector (after o) = mac_serial_sector g).
Proof.
  intros Hst Hsent Hknock Htag Hblk Hsec. unfold is_mac_serial_io.
  rewrite not_sentinel by assumption.
  destruct (detect_knock_frame g sector) as [k Hframe].
  destruct (mac_serial_detect_knock_sequence g sector) as [knocked g1].
  simpl in Hknock, Hframe. subst knocked g1. simpl. rewrite Hst. split.
  - intros (-> & -> & ->). simpl. rewrite !Z.eqb_refl. simpl.
    rewrite put_header_bytes, confirm_block, be32_value_be32
      by (assumption || lia).
    repeat split.
  - intros Hother.
    destruct (mode_eqb mode MAC_SERIAL_READ && (drive =? mac_serial_drive g)
              && (sector =? mac_serial_sector g)) eqn:E.
    + exfalso. apply Hother.
      apply andb_prop in E as [E Es]. apply andb_prop in E as [Em Ed].
      apply Z.eqb_eq in Es, Ed. destruct mode; [| discriminate].
      repeat split; assumption.
    + simpl. now rewrite Hst.
Qed.

Lemma sector_pending_confirmation_witness :
  let g := mkGlobals MAC_SERIAL_WAIT_MAGIC_READ 0 2 66051 fifo_init in
  let o := is_mac_serial_io g 2 66051 (replicate 12 9) (replicate 512 9)
             MAC_SERIAL_READ in
  handled o = true /\
  mac_serial_state (after o) = MAC_SERIAL_WAIT_MAGIC_SECTOR /\
  tags o = reply_header 8 /\
  block o = [70; 85; 74; 73; 0; 1; 2; 3] ++ replicate 504 9.
Proof.
  assert (Hst : mac_serial_state
                  (mkGlobals MAC_SERIAL_WAIT_MAGIC_READ 0 2 66051 fifo_init)
                = MAC_SERIAL_WAIT_MAGIC_READ) by reflexivity.
  assert (Hsent : 66051 <> MAC_SERIAL_NEGATIVE_LBA) by (vm_compute; discriminate).
  assert (Hknock : fst (mac_serial_detect_knock_sequence
                          (mkGlobals MAC_SERIAL_WAIT_MAGIC_READ 0 2 66051 fifo_init)
                          66051) = false) by reflexivity.
  assert (Htag : (12 <= length (replicate 12 9%Z))%nat) by (simpl; lia).
  assert (Hblk : length (replicate 512 9) = 512%nat) by reflexivity.
  assert (Hsec : is_uint32 (mac_serial_sector
                   (mkGlobals MAC_SERIAL_WAIT_MAGIC_READ 0 2 66051 fifo_init)))
    by (unfold is_uint32; simpl; lia).
  destruct (sector_pending_confirmation _ 2 66051 _ _ MAC_SERIAL_READ
              Hst Hsent Hknock Htag Hblk Hsec) as [Hyes _].
  destruct Hyes as (Hh & Hs & Ht & Hb & _); [repeat split |].
  split; [exact Hh |]. split; [exact Hs |]. split.
  - rewrite Ht. reflexivity.
  - rewrite Hb. reflexivity.
Defined.

End SectorPending.

(** ** The byte queue *)

Section ByteQueue.

(** [memcpy] into a range that lies inside the destination. *)
Lemma list_inserts_splice (l k : buffer) (n : nat) :
  (n + length k <= length l)%nat ->
  list_inserts n k l = take n l ++ k ++ drop (n + length k) l.
Proof.
  intros H.
  rewrite <- (take_drop n l) at 1.
  replace n with (length (take n l) + 0)%nat at 1
    by (rewrite length_take_le by lia; lia).
  rewrite list_inserts_app_r. f_equal.
  rewrite <- (take_drop (length k) (drop n l)) at 1.
  rewrite list_inserts_0_r, drop_drop; [reflexivity |].
  rewrite length_take_le; [reflexivity |]. rewrite length_drop. lia.
Qed.

Lemma uint16_small z : 0 <= z <= FIFO_SIZE -> uint16 z = z.
Proof. unfold FIFO_SIZE, uint16. intros H. apply Z.mod_small. lia. Qed.

(** A push that fits appends; the queue object stays well formed. *)
Lemma fifoPutData_fits fb (data : buffer) :
  fifo_wf fb ->
  fifoLen fb + Z.of_nat (length data) <= FIFO_SIZE ->
  let fb' := fifoPutData fb data (Z.of_nat (length data)) in
  fifo_contents fb' = fifo_contents fb ++ data /\
  fifoLen fb' = fifoLen fb + Z.of_nat (length data) /\
  fifo_wf fb'.
Proof.
  intros [Hlen Hdata] Hfit. unfold fifoPutData.
  rewrite (proj2 (Z.leb_le _ _) Hfit). unfold fifo_contents, fifo_wf, memcpy.
  simpl. rewrite uint16_small by lia.
  rewrite Nat2Z.id, firstn_all, length_inserts.
  unfold FIFO_SIZE in *.
  rewrite list_inserts_splice by lia.
  repeat split; try lia.
  rewrite Z2Nat.inj_add, Nat2Z.id by lia.
  rewrite app_assoc, take_app_length'; [reflexivity |].
  rewrite length_app, length_take_le by lia. reflexivity.
Qed.

(** A push that does not fit is dropped as a whole. *)
Lemma fifoPutData_overflow fb (data : buffer) (len : Z) :
  ~ fifoLen fb + len <= FIFO_SIZE -> fifoPutData fb data len = fb.
Proof.
  intros H. unfold fifoPutData.
  now rewrite (proj2 (Z.leb_gt _ _)) by lia.
Qed.

(** A pop takes the oldest bytes and keeps the others in order. *)
Lemma fifoGetData_front fb (buf : buffer) (pop_len : Z) :
  fifo_wf fb ->
  0 <= pop_len ->
  Z.min (fifoLen fb) pop_len <= Z.of_nat (length buf) ->
  let '(fb', buf', n) := fifoGetData fb buf pop_len in
  n = Z.min (fifoLen fb) pop_len /\
  buf' = take (Z.to_nat n) (fifo_contents fb) ++ drop (Z.to_nat n) buf /\
  fifo_contents fb' = drop (Z.to_nat n) (fifo_contents fb) /\
  fifoLen fb' = fifoLen fb - n /\
  fifo_wf fb'.
Proof.
  intros [Hlen Hdata] Hpop Hbuf. unfold fifoGetData, fifo_contents, fifo_wf.
  unfold FIFO_SIZE in *. simpl.
  set (n := Z.min (fifoLen fb) pop_len) in *.
  assert (Hn : 0 <= n <= fifoLen fb) by lia.
  unfold memcpy, memmove_down.
  rewrite uint16_small by (unfold FIFO_SIZE; lia).
  rewrite length_inserts.
  rewrite !list_inserts_splice;
    rewrite ?length_take_le; rewrite ?length_drop; try lia.
  rewrite take_take. replace (Z.to_nat n `min` Z.to_nat (fifoLen fb))%nat
    with (Z.to_nat n) by lia.
  simpl. repeat split; try lia.
  rewrite take_app_length' by (rewrite length_take_le by (rewrite length_drop; lia); lia).
  rewrite take_drop_commute. do 2 f_equal. lia.
Qed.

End ByteQueue.

Section ByteQueueClaim.

(** C8, as stated, fails for a batch larger than the queue: 2001 bytes
    pushed onto the empty queue are dropped as a whole, so the following
    pop of 5 returns no byte at all instead of the first min(2001, 5). *)
Lemma byte_queue_counterexample :
  let data := replicate 2001 7 in
  let fb := fifoPutData fifo_init data (Z.of_nat (length data)) in
  let '(fb', buf', n) := fifoGetData fb (replicate 8 0) 5 in
  n <> Z.min (Z.of_nat (length data)) 5 /\
  take 5 buf' <> take 5 data.
Proof. vm_compute. split; discriminate. Qed.

(** C8 (amended).  On a well-formed queue, push(data) appends data if and
    only if the current length plus len(data) is at most 2000, and
    otherwise leaves the queue object as it was; a pop(pop_len) that
    follows a push(data) of at most 2000 bytes onto an empty queue
    returns the first min(len(data), pop_len) bytes of data in their
    order (the rest of the caller's buffer is untouched), keeps the
    remaining bytes of data in the queue and decrements the length by
    that count. *)
Theorem byte_queue_semantics :
  (forall (fb : FifoBuffer) (data : buffer),
     fifo_wf fb ->
     let len := Z.of_nat (length data) in
     let fb' := fifoPutData fb data len in
     ((fifo_contents fb' = fifo_contents fb ++ data /\
       fifoLen fb' = fifoLen fb + len) <-> fifoLen fb + len <= FIFO_SIZE) /\
     (~ fifoLen fb + len <= FIFO_SIZE -> fb' = fb) /\
     fifo_wf fb') /\
  (forall (fb : FifoBuffer) (data buf : buffer) (pop_len : Z),
     fifo_wf fb ->
     fifoLen fb = 0 ->
     Z.of_nat (length data) <= FIFO_SIZE ->
     0 <= pop_len ->
     Z.min (Z.of_nat (length data)) pop_len <= Z.of_nat (length buf) ->
     let pushed := fifoPutData fb data (Z.of_nat (length data)) in
     let '(fb', buf', n) := fifoGetData pushed buf pop_len in
     n = Z.min (Z.of_nat (length data)) pop_len /\
     take (Z.to_nat n) buf' = take (Z.to_nat n) data /\
     drop (Z.to_nat n) buf' = drop (Z.to_nat n) buf /\
     fifoLen fb' = fifoLen pushed - n /\
     fifo_contents fb' = drop (Z.to_nat n) data).
Proof.
  split.
  - intros fb data Hwf len fb'.
    destruct (Z.le_gt_cases (fifoLen fb + len) FIFO_SIZE) as [Hfit | Hover].
    + destruct (fifoPutData_fits fb data Hwf Hfit) as (Hc & Hl & Hwf').
      split; [split; [intros _; exact Hfit | intros _; split; assumption] |].
      split; [intros Hno; contradiction | exact Hwf'].
    + assert (Hsame : fb' = fb) by (apply fifoPutData_overflow; lia).
      rewrite Hsame. split; [split |]; [| lia | split; [reflexivity | exact Hwf]].
      intros [_ Hl]. destruct Hwf as [Hrange _]. lia.
  - intros fb data buf pop_len Hwf Hempty Hdata Hpop Hbuf pushed.
    assert (Hfit : fifoLen fb + Z.of_nat (length data) <= FIFO_SIZE) by lia.
    destruct (fifoPutData_fits fb data Hwf Hfit) as (Hc & Hl & Hwf').
    fold pushed in Hc, Hl, Hwf'.
    assert (Hold : fifo_contents fb = []).
    { unfold fifo_contents. now rewrite Hempty. }
    rewrite Hold in Hc. simpl in Hc. rewrite Hempty in Hl. simpl in Hl.
    pose proof (fifoGetData_front pushed buf pop_len Hwf' Hpop) as Hget.
    rewrite Hl in Hget. specialize (Hget Hbuf).
    destruct (fifoGetData pushed buf pop_len) as [[fb' buf'] n].
    destruct Hget as (Hn & Hbuf' & Hrest & Hlen' & _).
    rewrite Hc in Hbuf', Hrest.
    assert (Hnlen : length (take (Z.to_nat n) data) = Z.to_nat n).
    { apply length_take_le. lia. }
    repeat split; try assumption.
    + rewrite Hbuf'. rewrite take_app_length'; [reflexivity | now rewrite Hnlen].
    + rewrite Hbuf'. rewrite drop_app_length'; [reflexivity | now rewrite Hnlen].
    + rewrite Hl. exact Hlen'.
Qed.

Lemma byte_queue_semantics_witness :
  let pushed := fifoPutData fifo_init [10; 20; 30; 40] 4 in
  fifo_contents pushed = [10; 20; 30; 40] /\
  (let '(fb', buf', n) := fifoGetData pushed (replicate 6 0) 3 in
   n = 3 /\ take 3 buf' = [10; 20; 30] /\ fifoLen fb' = 1 /\
   fifo_contents fb' = [40]).
Proof.
  destruct byte_queue_semantics as [Hpush Hpop].
  assert (Hwf : fifo_wf fifo_init) by (split; [vm_compute; split; discriminate | reflexivity]).
  split.
  - destruct (Hpush fifo_init [10; 20; 30; 40] Hwf) as ([_ Happ] & _ & _).
    apply Happ. vm_compute. discriminate.
  - assert (Hempty : fifoLen fifo_init = 0) by reflexivity.
    assert (Hdata : Z.of_nat (length [10; 20; 30; 40]) <= FIFO_SIZE)
      by (vm_compute; discriminate).
    assert (Hlen : 0 <= 3) by lia.
    assert (Hbuf : Z.min (Z.of_nat (length [10; 20; 30; 40])) 3
                   <= Z.of_nat (length (replicate 6 0)))
      by (vm_compute; discriminate).
    pose proof (Hpop fifo_init [10; 20; 30; 40] (replicate 6 0) 3
                  Hwf Hempty Hdata Hlen Hbuf) as H.
    cbv zeta in H.
    change (Z.of_nat (length [10; 20; 30; 40])) with 4 in H.
    destruct (fifoGetData _ _ 3) as [[fb' buf'] n].
    destruct H as (Hn & Htake & _ & Hl & Hc).
    change (Z.min 4 3) with 3 in Hn. subst n.
    split; [reflexivity |]. split; [exact Htake |]. split; [| exact Hc].
    rewrite Hl. reflexivity.
Defined.

End ByteQueueClaim.

(** ** Writes through the channel handler *)

Section ChannelWrite.

Lemma clamp_min len cap : (if len >? cap then cap else len) = Z.min len cap.
Proof. destruct (Z.gtb_spec len cap); lia. Qed.

(** C7. A write handled by the channel handler returns false if and only
    if neither the tag buffer nor the head of the block buffer decodes as
    a request header, and then no global changes. When the tags decode,
    the length they declare, clamped to 512, and the block from offset 0
    go to the transport; when only the block decodes, the length it
    declares, clamped to 500, and the block from offset 12 go to the
    transport; in both cases the call returns true. The block buffer is
    never modified. *)
Theorem channel_write_rejection (g : globals) (tagPtr blkPtr : buffer) :
  let '(r, g', blk') := mac_serial_magic_sector_io g tagPtr blkPtr MAC_SERIAL_WRITE in
  let forwarded payload len :=
    set_fifo g (fst (fst (mac_serial_handler (fifo g) payload len MAC_SERIAL_WRITE))) in
  (r = false <-> header_valid tagPtr = false /\ header_valid blkPtr = false) /\
  (r = false -> g' = g) /\
  (header_valid tagPtr = true ->
     r = true /\ g' = forwarded blkPtr (Z.min (header_len tagPtr) 512)) /\
  (header_valid tagPtr = false -> header_valid blkPtr = true ->
     r = true /\ g' = forwarded (drop 12 blkPtr) (Z.min (header_len blkPtr) 500)) /\
  blk' = blkPtr.
Proof.
  unfold mac_serial_magic_sector_io.
  rewrite (get_header_cases tagPtr).
  destruct (header_valid tagPtr) eqn:Htag.
  - rewrite clamp_min. simpl.
    split; [split; [discriminate | intros [H _]; discriminate] |].
    split; [discriminate |]. split; [intros _; split; reflexivity |].
    split; [discriminate | reflexivity].
  - rewrite (get_header_cases blkPtr).
    destruct (header_valid blkPtr) eqn:Hblk.
    + rewrite clamp_min. simpl.
      split; [split; [discriminate | intros [_ H]; discriminate] |].
      split; [discriminate |]. split; [discriminate |].
      split; [intros _ _; split; reflexivity | reflexivity].
    + split; [split; [intros _; split; reflexivity | reflexivity] |].
      split; [reflexivity |]. split; [discriminate |].
      split; [discriminate | reflexivity].
Qed.

Lemma channel_write_rejection_witness :
  let blk := [78; 68; 69; 86; 0; 0; 255; 255; 0; 0; 0; 0] ++ replicate 500 1 in
  let '(r, g', _) :=
    mac_serial_magic_sector_io globals_init (replicate 12 0) blk MAC_SERIAL_WRITE in
  r = true /\
  g' = set_fifo globals_init (fifoPutData fifo_init (drop 12 blk) 500).
Proof.
  intros blk.
  pose proof (channel_write_rejection globals_init (replicate 12 0) blk) as H.
  destruct (mac_serial_magic_sector_io globals_init (replicate 12 0) blk
              MAC_SERIAL_WRITE) as [[r g'] blk'].
  destruct H as (_ & _ & _ & Hblk & _).
  apply Hblk; reflexivity.
Defined.

End ChannelWrite.

(** * Further properties of the code *)

(** ** More on the header codec *)

Section HeaderCodecMore.

Lemma rd_tail (b : buffer) i : rd (tail b) i = rd b (S i).
Proof. now destruct b. Qed.

Lemma memcmp_succ (a b : buffer) n :
  memcmp a b (S n) = 0 <-> rd a 0 = rd b 0 /\ memcmp (tail a) (tail b) n = 0.
Proof.
  cbn [memcmp]. destruct (Z.eqb_spec (rd a 0) (rd b 0)) as [E | N].
  - tauto.
  - split; [destruct (_ <? _); discriminate | intros [? _]; contradiction].
Qed.

(** X1. Encoding overwrites the first twelve bytes whatever they held,
    touches no later byte and keeps the size of the buffer: a second
    encoding replaces the first one entirely. *)
Theorem put_header_overwrites (buff : buffer) (len1 len2 : Z) :
  (12 <= length buff)%nat ->
  length (mac_serial_put_header buff len1) = length buff /\
  take 12 (mac_serial_put_header buff len1) = reply_header len1 /\
  drop 12 (mac_serial_put_header buff len1) = drop 12 buff /\
  mac_serial_put_header (mac_serial_put_header buff len1) len2
  = mac_serial_put_header buff len2.
Proof.
  intros H. split; [apply put_header_length |].
  rewrite (put_header_bytes (mac_serial_put_header buff len1))
    by (now rewrite put_header_length).
  rewrite !put_header_bytes by assumption.
  split; [reflexivity |]. split; reflexivity.
Qed.

Lemma put_header_overwrites_witness :
  mac_serial_put_header (mac_serial_put_header (replicate 14 7) 500) 3
  = reply_header 3 ++ [7; 7].
Proof.
  assert (H : (12 <= length (replicate 14 7%Z))%nat) by (simpl; lia).
  destruct (put_header_overwrites (replicate 14 7) 500 3 H) as (_ & _ & _ & Hre).
  rewrite Hre. reflexivity.
Defined.

(** X2. The decoder looks at bytes 0-3, 6 and 7 only: a buffer is accepted
    exactly when it starts with "NDEV", whatever the reserved bytes hold;
    a refused buffer leaves the out-parameter alone; an accepted buffer of
    bytes yields the big-endian value of bytes 6 and 7, which is below
    65536. *)
Theorem get_header_spec (buff : buffer) (l : Z) :
  (header_valid buff = true <->
     rd buff 0 = 78 /\ rd buff 1 = 68 /\ rd buff 2 = 69 /\ rd buff 3 = 86) /\
  (header_valid buff = false -> mac_serial_get_header buff l = (false, l)) /\
  (header_valid buff = true -> 0 <= rd buff 6 < 256 -> 0 <= rd buff 7 < 256 ->
     mac_serial_get_header buff l = (true, rd buff 6 * 256 + rd buff 7) /\
     is_uint16 (rd buff 6 * 256 + rd buff 7)).
Proof.
  split; [| split].
  - unfold header_valid, mac_serial_get_header.
    assert (Hcmp : memcmp buff MAC_SERIAL_REQUEST_TAG 4 = 0 <->
              rd buff 0 = 78 /\ rd buff 1 = 68 /\ rd buff 2 = 69 /\ rd buff 3 = 86).
    { rewrite !memcmp_succ, !rd_tail. cbn [memcmp].
      change (rd MAC_SERIAL_REQUEST_TAG 0) with 78.
      change (rd (tail MAC_SERIAL_REQUEST_TAG) 0) with 68.
      change (rd (tail (tail MAC_SERIAL_REQUEST_TAG)) 0) with 69.
      change (rd (tail (tail (tail MAC_SERIAL_REQUEST_TAG))) 0) with 86.
      tauto. }
    rewrite <- Hcmp.
    destruct (Z.eqb_spec (memcmp buff MAC_SERIAL_REQUEST_TAG 4) 0) as [E | N];
      cbn [negb fst]; split; intros H;
      reflexivity || assumption || discriminate || contradiction.
  - intros H. rewrite get_header_cases, H. reflexivity.
  - intros H H6 H7. rewrite get_header_cases, H.
    unfold header_len, mac_serial_get_header. unfold header_valid in H.
    unfold mac_serial_get_header in H.
    destruct (negb _); [discriminate |]. simpl.
    rewrite CHARS_TO_UINT16_bytes by assumption.
    unfold uint16, is_uint16. rewrite Z.mod_small by lia. split; [reflexivity | lia].
Qed.

Lemma get_header_spec_witness :
  mac_serial_get_header [78; 68; 69; 86; 9; 9; 1; 244; 9; 9; 9; 9] 0 = (true, 500).
Proof.
  destruct (get_header_spec [78; 68; 69; 86; 9; 9; 1; 244; 9; 9; 9; 9] 0)
    as (_ & _ & H).
  apply H; [reflexivity | unfold rd; simpl; lia | unfold rd; simpl; lia].
Defined.

End HeaderCodecMore.

(** ** More on the knock *)

Section KnockMore.

(** X3. With the counter in bounds, the detection reports a complete knock
    exactly when the counter is 4 and the address is 73; it touches no
    global but the counter, which moves to the next index (wrapping from 4
    to 0) on a match and to 0 on any other address. *)
Theorem detect_knock_spec (g : globals) (sector : Z) :
  knock_in_bounds g ->
  let r := mac_serial_detect_knock_sequence g sector in
  (fst r = true <-> mac_serial_knock g = 4 /\ sector = 73) /\
  snd r = set_knock g
            (if bool_decide (MAC_SERIAL_KNOCK_SEQ !! Z.to_nat (mac_serial_knock g)
                             = Some sector)
             then (mac_serial_knock g + 1) mod 5 else 0).
Proof.
  intros [Hk _]. unfold mac_serial_detect_knock_sequence.
  assert (Hcases : mac_serial_knock g = 0 \/ mac_serial_knock g = 1 \/
                   mac_serial_knock g = 2 \/ mac_serial_knock g = 3 \/
                   mac_serial_knock g = 4) by lia.
  destruct Hcases as [H | [H | [H | [H | H]]]]; rewrite H;
    (case_bool_decide as Hd; cbn in Hd;
     [injection Hd as <-; cbn; split; [split; [discriminate || tauto | lia || tauto]
                                      | reflexivity]
     | cbn; split; [split; [discriminate | intros [E1 E2]; try lia;
                                            subst sector; contradiction]
                   | reflexivity]]).
Qed.

Lemma detect_knock_spec_witness :
  mac_serial_detect_knock_sequence (set_knock globals_init 4) 73
  = (true, set_knock (set_knock globals_init 4) 0).
Proof.
  assert (Hb : knock_in_bounds (set_knock globals_init 4))
    by (split; [simpl; lia | vm_compute; eauto]).
  destruct (detect_knock_spec (set_knock globals_init 4) 73 Hb) as [[_ Ht] Hs].
  destruct (mac_serial_detect_knock_sequence (set_knock globals_init 4) 73)
    as [r g'].
  simpl in Ht, Hs. rewrite Ht by (split; reflexivity). rewrite Hs. reflexivity.
Defined.

(** X4. A restart is not recognised: in Idle with a knock under way (counter
    1 to 4), the addresses 0, 70, 85, 74, 73 on the next five calls do not
    complete a knock.  The leading 0 is a mismatch that only resets the
    counter, so 70 is then compared with the first element; the session
    stays Idle with the counter at 0 and no drive is claimed. *)
Theorem knock_restart_not_detected (g : globals) (a1 a2 a3 a4 a5 : access) :
  mac_serial_state g = MAC_SERIAL_WAIT_KNOCK ->
  1 <= mac_serial_knock g <= 4 ->
  map a_sector [a1; a2; a3; a4; a5] = [0; 70; 85; 74; 73] ->
  run g [a1; a2; a3; a4; a5] = set_knock g 0 /\
  handled (step (run g [a1; a2; a3; a4]) a5) = false.
Proof.
  destruct a1 as [d1 s1 t1 b1 m1], a2 as [d2 s2 t2 b2 m2],
           a3 as [d3 s3 t3 b3 m3], a4 as [d4 s4 t4 b4 m4],
           a5 as [d5 s5 t5 b5 m5].
  intros Hst Hk Hsec. simpl in Hsec. injection Hsec as -> -> -> -> ->.
  destruct g as [st k d s f]. simpl in Hst, Hk. subst st.
  assert (Hcases : k = 1 \/ k = 2 \/ k = 3 \/ k = 4) by lia.
  unfold run, step. cbn [fold_left a_drive a_sector a_tags a_block a_mode].
  destruct Hcases as [-> | [-> | [-> | ->]]];
    repeat (rewrite idle_call by (reflexivity || (vm_compute; discriminate));
            cbn [after handled]);
    split; reflexivity.
Qed.

Lemma knock_restart_not_detected_witness :
  let acc s := mkAccess 1 s (replicate 12 0) (replicate 512 0) MAC_SERIAL_READ in
  run (set_knock globals_init 2) [acc 0; acc 70; acc 85; acc 74; acc 73]
  = globals_init.
Proof.
  intros acc.
  assert (Hst : mac_serial_state (set_knock globals_init 2) = MAC_SERIAL_WAIT_KNOCK)
    by reflexivity.
  assert (Hk : 1 <= mac_serial_knock (set_knock globals_init 2) <= 4)
    by (simpl; lia).
  destruct (knock_restart_not_detected (set_knock globals_init 2)
              (acc 0) (acc 70) (acc 85) (acc 74) (acc 73) Hst Hk eq_refl)
    as [Hrun _].
  rewrite Hrun. reflexivity.
Defined.

(** X5. A read that presents the last knock address with the counter at 4
    re-arms the handshake from every phase, Active included: the calling
    drive is claimed, the magic sector is zeroed, the counter returns to
    0, the queue and the block are untouched, the tags receive the reply
    header with length 0, and the access itself is left to the disk
    (false). *)
Theorem knock_completing_read_rearms (g : globals) (drive : Z)
    (tagPtr blkPtr : buffer) :
  mac_serial_knock g = 4 ->
  (12 <= length tagPtr)%nat ->
  let o := is_mac_serial_io g drive 73 tagPtr blkPtr MAC_SERIAL_READ in
  handled o = false /\
  after o = mkGlobals MAC_SERIAL_WAIT_MAGIC_WRITE 0 drive 0 (fifo g) /\
  tags o = reply_header 0 ++ drop 12 tagPtr /\
  block o = blkPtr.
Proof.
  intros Hk Hlen o. subst o. rewrite knock_completing_call by assumption.
  cbn [handled after tags block]. rewrite put_header_bytes by assumption.
  repeat split.
Qed.

Lemma knock_completing_read_rearms_witness :
  let g := mkGlobals MAC_SERIAL_WAIT_MAGIC_SECTOR 4 1 500 fifo_init in
  let o := is_mac_serial_io g 2 73 (replicate 12 9) (replicate 512 0)
             MAC_SERIAL_READ in
  handled o = false /\
  after o = mkGlobals MAC_SERIAL_WAIT_MAGIC_WRITE 0 2 0 fifo_init /\
  tags o = reply_header 0.
Proof.
  assert (Hk : mac_serial_knock
                 (mkGlobals MAC_SERIAL_WAIT_MAGIC_SECTOR 4 1 500 fifo_init) = 4)
    by reflexivity.
  assert (Hlen : (12 <= length (replicate 12 9%Z))%nat) by (simpl; lia).
  destruct (knock_completing_read_rearms _ 2 (replicate 12 9) (replicate 512 0)
              Hk Hlen) as (Hh & Ha & Ht & _).
  split; [exact Hh |]. split; [exact Ha |]. rewrite Ht. reflexivity.
Defined.

End KnockMore.

(** ** Accesses the state machine declines *)

Section Declined.

(** X6. In ClaimedDrive a read, or an access on another drive than the
    claimed one, is left to the disk: the call returns false, the buffers
    are untouched and no global but the knock counter changes. *)
Theorem claimed_drive_ignores_others (g : globals) (drive sector : Z)
    (tagPtr blkPtr : buffer) (mode : mac_serial_mode) :
  mac_serial_state g = MAC_SERIAL_WAIT_MAGIC_WRITE ->
  sector <> MAC_SERIAL_NEGATIVE_LBA ->
  fst (mac_serial_detect_knock_sequence g sector) = false ->
  mode = MAC_SERIAL_READ \/ drive <> mac_serial_drive g ->
  is_mac_serial_io g drive sector tagPtr blkPtr mode
  = mkOutcome false (snd (mac_serial_detect_knock_sequence g sector)) tagPtr blkPtr.
Proof.
  intros Hst Hsent Hknock Hother. unfold is_mac_serial_io.
  rewrite not_sentinel by assumption.
  destruct (detect_knock_frame g sector) as [k Hframe].
  destruct (mac_serial_detect_knock_sequence g sector) as [knocked g1].
  simpl in Hknock, Hframe. subst knocked g1. simpl. rewrite Hst.
  destruct Hother as [-> | Hd]; [reflexivity |].
  apply Z.eqb_neq in Hd. rewrite Hd, andb_false_r. reflexivity.
Qed.

Lemma claimed_drive_ignores_others_witness :
  let g := mkGlobals MAC_SERIAL_WAIT_MAGIC_WRITE 0 1 0 fifo_init in
  is_mac_serial_io g 2 300 (replicate 12 0) (replicate 512 0) MAC_SERIAL_WRITE
  = mkOutcome false g (replicate 12 0) (replicate 512 0).
Proof.
  intros g.
  assert (Hst : mac_serial_state g = MAC_SERIAL_WAIT_MAGIC_WRITE) by reflexivity.
  assert (Hsent : 300 <> MAC_SERIAL_NEGATIVE_LBA) by (vm_compute; discriminate).
  assert (Hknock : fst (mac_serial_detect_knock_sequence g 300) = false)
    by reflexivity.
  assert (Hother : MAC_SERIAL_WRITE = MAC_SERIAL_READ \/ 2 <> mac_serial_drive g)
    by (right; simpl; lia).
  rewrite (claimed_drive_ignores_others g 2 300 (replicate 12 0) (replicate 512 0)
             MAC_SERIAL_WRITE Hst Hsent Hknock Hother).
  reflexivity.
Defined.

(** X7. In Active an access that is not on the claimed drive at the magic
    sector passes through to the disk: the call returns false, the
    buffers and the queue are untouched and the phase stays Active. *)
Theorem active_passes_other_sectors (g : globals) (drive sector : Z)
    (tagPtr blkPtr : buffer) (mode : mac_serial_mode) :
  mac_serial_state g = MAC_SERIAL_WAIT_MAGIC_SECTOR ->
  sector <> MAC_SERIAL_NEGATIVE_LBA ->
  fst (mac_serial_detect_knock_sequence g sector) = false ->
  drive <> mac_serial_drive g \/ sector <> mac_serial_sector g ->
  is_mac_serial_io g drive sector tagPtr blkPtr mode
  = mkOutcome false (snd (mac_serial_detect_knock_sequence g sector)) tagPtr blkPtr.
Proof.
  intros Hst Hsent Hknock Hother. unfold is_mac_serial_io.
  rewrite not_sentinel by assumption.
  destruct (detect_knock_frame g sector) as [k Hframe].
  destruct (mac_serial_detect_knock_sequence g sector) as [knocked g1].
  simpl in Hknock, Hframe. subst knocked g1. simpl. rewrite Hst.
  destruct Hother as [Hd | Hs].
  - apply Z.eqb_neq in Hd. rewrite Hd. reflexivity.
  - apply Z.eqb_neq in Hs. rewrite Hs, andb_false_r. reflexivity.
Qed.

Lemma active_passes_other_sectors_witness :
  let g := mkGlobals MAC_SERIAL_WAIT_MAGIC_SECTOR 0 1 500 fifo_init in
  is_mac_serial_io g 1 501 (replicate 12 0) (replicate 512 3) MAC_SERIAL_WRITE
  = mkOutcome false g (replicate 12 0) (replicate 512 3).
Proof.
  intros g.
  assert (Hst : mac_serial_state g = MAC_SERIAL_WAIT_MAGIC_SECTOR) by reflexivity.
  assert (Hsent : 501 <> MAC_SERIAL_NEGATIVE_LBA) by (vm_compute; discriminate).
  assert (Hknock : fst (mac_serial_detect_knock_sequence g 501) = false)
    by reflexivity.
  assert (Hother : 1 <> mac_serial_drive g \/ 501 <> mac_serial_sector g)
    by (right; simpl; lia).
  rewrite (active_passes_other_sectors g 1 501 (replicate 12 0) (replicate 512 3)
             MAC_SERIAL_WRITE Hst Hsent Hknock Hother).
  reflexivity.
Defined.

End Declined.

(** ** What a call does to the caller's buffers *)

Section BufferFrame.



End BufferFrame.

Section TagFrame.

(** X9. The tag buffer is written by the handshake only: a call that returns
    other tags than it was given is not a sentinel access, and either
    completes a knock or is the confirming read of SectorPending.  Channel
    traffic never touches the tags. *)
Theorem tags_written_only_by_handshake (g : globals) (drive sector : Z)
    (tagPtr blkPtr : buffer) (mode : mac_serial_mode) :
  tags (is_mac_serial_io g drive sector tagPtr blkPtr mode) <> tagPtr ->
  sector <> MAC_SERIAL_NEGATIVE_LBA /\
  (fst (mac_serial_detect_knock_sequence g sector) = true \/
   (mac_serial_state g = MAC_SERIAL_WAIT_MAGIC_READ /\ mode = MAC_SERIAL_READ /\
    drive = mac_serial_drive g /\ sector = mac_serial_sector g)).
Proof.
  unfold is_mac_serial_io.
  destruct (Z.eqb_spec sector MAC_SERIAL_NEGATIVE_LBA) as [-> | Hsent].
  - destruct (mac_serial_magic_sector_io g tagPtr blkPtr mode) as [[r g1] b1].
    intros H. now contradiction H.
  - destruct (detect_knock_frame g sector) as [k Hframe].
    destruct (mac_serial_detect_knock_sequence g sector) as [knocked g1].
    simpl in Hframe. subst g1. cbn [fst]. intros H. split; [assumption |].
    destruct knocked; [now left | right]. revert H.
    cbn [mac_serial_state set_knock mac_serial_drive mac_serial_sector].
    destruct (mac_serial_state g).
    + intros H. now contradiction H.
    + destruct (andb _ _); intros H; now contradiction H.
    + destruct (andb _ _) eqn:E; [| intros H; now contradiction H].
      intros _. apply andb_prop in E as [E Es]. apply andb_prop in E as [Em Ed].
      apply Z.eqb_eq in Es, Ed. destruct mode; [| discriminate]. repeat split; assumption.
    + destruct (andb _ _); [| intros H; now contradiction H].
      destruct (mac_serial_magic_sector_io _ tagPtr blkPtr mode) as [[r g3] b3].
      intros H. now contradiction H.
Qed.

Lemma tags_written_only_by_handshake_witness :
  let g := mkGlobals MAC_SERIAL_WAIT_MAGIC_READ 0 1 500 fifo_init in
  mac_serial_state g = MAC_SERIAL_WAIT_MAGIC_READ /\ 1 = mac_serial_drive g /\
  500 = mac_serial_sector g.
Proof.
  intros g.
  assert (H : tags (is_mac_serial_io g 1 500 (replicate 12 0) (replicate 512 0)
                      MAC_SERIAL_READ) <> replicate 12 0)
    by (vm_compute; discriminate).
  destruct (tags_written_only_by_handshake g 1 500 (replicate 12 0)
              (replicate 512 0) MAC_SERIAL_READ H) as [_ [Hk | (Hst & _ & Hd & Hs)]].
  - vm_compute in Hk. discriminate.
  - split; [exact Hst |]. split; [exact Hd | exact Hs].
Defined.

End TagFrame.

(** ** More on the byte queue *)

Section ByteQueueMore.

Lemma fifoPutData_wf fb (buf : buffer) (len : Z) :
  fifo_wf fb -> 0 <= len -> fifo_wf (fifoPutData fb buf len).
Proof.
  intros [Hlen Hdata] Hpos. unfold fifoPutData.
  destruct (Z.leb_spec (fifoLen fb + len) FIFO_SIZE) as [Hfit | Hover];
    [| now split].
  unfold fifo_wf, memcpy. cbn [fifoLen fifoData].
  rewrite length_inserts, uint16_small by lia. split; [lia | assumption].
Qed.

Lemma fifoGetData_wf fb (buf : buffer) (len : Z) :
  fifo_wf fb -> 0 <= len -> fifo_wf (fst (fst (fifoGetData fb buf len))).
Proof.
  intros [Hlen Hdata] Hpos. unfold fifoGetData, fifo_wf, memmove_down.
  cbn [fst fifoLen fifoData].
  rewrite length_inserts, uint16_small by lia. split; [lia | assumption].
Qed.

(** X10. Bytes leave the queue in the order they entered it, across pushes
    and behind what was queued before: after two pushes that fit, a pop
    returns the first min(total length, pop_len) bytes of the old
    contents followed by the first and then the second batch, and keeps
    the remaining bytes in that order. *)
Theorem fifo_order (fb : FifoBuffer) (a b buf : buffer) (pop_len : Z) :
  fifo_wf fb ->
  fifoLen fb + Z.of_nat (length a) + Z.of_nat (length b) <= FIFO_SIZE ->
  0 <= pop_len <= Z.of_nat (length buf) ->
  let queued := fifo_contents fb ++ a ++ b in
  let fb2 := fifoPutData (fifoPutData fb a (Z.of_nat (length a))) b
               (Z.of_nat (length b)) in
  let '(fb3, buf', n) := fifoGetData fb2 buf pop_len in
  fifo_contents fb2 = queued /\
  n = Z.min (Z.of_nat (length queued)) pop_len /\
  buf' = take (Z.to_nat n) queued ++ drop (Z.to_nat n) buf /\
  fifo_contents fb3 = drop (Z.to_nat n) queued.
Proof.
  intros Hwf Hfit Hpop queued fb2.
  assert (Hfa : fifoLen fb + Z.of_nat (length a) <= FIFO_SIZE) by lia.
  destruct (fifoPutData_fits fb a Hwf Hfa) as (Hc1 & Hl1 & Hwf1).
  set (fb1 := fifoPutData fb a (Z.of_nat (length a))) in *.
  assert (Hfb : fifoLen fb1 + Z.of_nat (length b) <= FIFO_SIZE) by lia.
  destruct (fifoPutData_fits fb1 b Hwf1 Hfb) as (Hc2 & Hl2 & Hwf2).
  fold fb2 in Hc2, Hl2, Hwf2.
  assert (Hq : fifo_contents fb2 = queued).
  { rewrite Hc2, Hc1. unfold queued. now rewrite <- app_assoc. }
  assert (Hlen : fifoLen fb2 = Z.of_nat (length queued)).
  { rewrite <- Hq. unfold fifo_contents. destruct Hwf2 as [Hr Hd].
    unfold FIFO_SIZE in *. rewrite length_take_le by lia. lia. }
  assert (Hbuf : Z.min (fifoLen fb2) pop_len <= Z.of_nat (length buf)) by lia.
  pose proof (fifoGetData_front fb2 buf pop_len Hwf2 (proj1 Hpop) Hbuf) as Hget.
  destruct (fifoGetData fb2 buf pop_len) as [[fb3 buf'] n].
  destruct Hget as (Hn & Hb & Hrest & _ & _).
  rewrite Hq in Hb, Hrest. rewrite Hlen in Hn. repeat split; assumption.
Qed.

Lemma fifo_order_witness :
  let fb2 := fifoPutData (fifoPutData fifo_init [1; 2] 2) [3; 4; 5] 3 in
  let '(fb3, buf', n) := fifoGetData fb2 (replicate 4 0) 4 in
  n = 4 /\ buf' = [1; 2; 3; 4] /\ fifo_contents fb3 = [5].
Proof.
  assert (Hwf : fifo_wf fifo_init)
    by (split; [vm_compute; split; discriminate | reflexivity]).
  assert (Hfit : fifoLen fifo_init + Z.of_nat (length [1; 2])
                 + Z.of_nat (length [3; 4; 5]) <= FIFO_SIZE)
    by (vm_compute; discriminate).
  assert (Hpop : 0 <= 4 <= Z.of_nat (length (replicate 4 0)))
    by (vm_compute; split; discriminate).
  pose proof (fifo_order fifo_init [1; 2] [3; 4; 5] (replicate 4 0) 4
                Hwf Hfit Hpop) as H.
  cbv zeta in H |- *.
  change (Z.of_nat (length [1; 2])) with 2 in H.
  change (Z.of_nat (length [3; 4; 5])) with 3 in H.
  destruct (fifoGetData _ (replicate 4 0) 4) as [[fb3 buf'] n].
  destruct H as (_ & Hn & Hb & Hrest).
  change (Z.min _ 4) with 4 in Hn. subst n.
  split; [reflexivity |]. split; [exact Hb | exact Hrest].
Defined.

(** X11. A pop from an empty queue returns no byte and changes neither the
    queue object nor the caller's buffer. *)
Theorem fifo_pop_empty (fb : FifoBuffer) (buf : buffer) (len : Z) :
  fifoLen fb = 0 -> 0 <= len -> fifoGetData fb buf len = (fb, buf, 0).
Proof.
  intros H0 Hlen. destruct fb as [l d]. simpl in H0. subst l.
  unfold fifoGetData, memcpy, memmove_down. cbn [fifoLen fifoData].
  rewrite Z.min_l by lia. reflexivity.
Qed.

Lemma fifo_pop_empty_witness :
  fifoGetData fifo_init [9; 9; 9] 3 = (fifo_init, [9; 9; 9], 0).
Proof. apply fifo_pop_empty; [reflexivity | lia]. Defined.

(** X12. On a well-formed queue the free space and the queued bytes add up to
    the capacity; [fifoPutChar] appends its byte when there is space left
    and does nothing when there is none. *)
Theorem fifo_put_char (fb : FifoBuffer) (c : Z) :
  fifo_wf fb ->
  fifoSpaceLeft fb + fifoBytesAvailable fb = FIFO_SIZE /\
  (fifoSpaceLeft fb <> 0 ->
     fifo_contents (fifoPutChar fb c) = fifo_contents fb ++ [c] /\
     fifoSpaceLeft (fifoPutChar fb c) = fifoSpaceLeft fb - 1) /\
  (fifoSpaceLeft fb = 0 -> fifoPutChar fb c = fb).
Proof.
  intros Hwf. pose proof Hwf as [Hlen Hdata].
  assert (Hspace : fifoSpaceLeft fb = FIFO_SIZE - fifoLen fb).
  { unfold fifoSpaceLeft. apply uint16_small. lia. }
  rewrite Hspace. unfold fifoBytesAvailable, fifoPutChar.
  split; [lia |]. split.
  - intros Hroom.
    assert (Hfit : fifoLen fb + Z.of_nat (length [c]) <= FIFO_SIZE) by (simpl; lia).
    destruct (fifoPutData_fits fb [c] Hwf Hfit) as (Hc & Hl & [Hr _]).
    change (Z.of_nat (length [c])) with 1 in Hc, Hl, Hr.
    split; [exact Hc |]. unfold fifoSpaceLeft.
    rewrite uint16_small by lia. lia.
  - intros Hfull. apply fifoPutData_overflow. lia.
Qed.

Lemma fifo_put_char_witness :
  fifo_contents (fifoPutChar fifo_init 65) = [65].
Proof.
  assert (Hwf : fifo_wf fifo_init)
    by (split; [vm_compute; split; discriminate | reflexivity]).
  destruct (fifo_put_char fifo_init 65 Hwf) as (_ & Hput & _).
  destruct Hput as [Hc _]; [vm_compute; discriminate |].
  rewrite Hc. reflexivity.
Defined.

End ByteQueueMore.

(** ** Traffic through the channel handler *)

Section Channel.

Lemma reply_header_length len : length (reply_header len) = 12%nat.
Proof. reflexivity. Qed.

(** The effect of a read through the channel handler, part by part. *)
Lemma channel_read_parts (g : globals) (tagPtr blkPtr : buffer) :
  fifo_wf (fifo g) ->
  length blkPtr = 512%nat ->
  let avail := fifoLen (fifo g) in
  let n := Z.to_nat (Z.min avail 500) in
  let '(r, g', blk') := mac_serial_magic_sector_io g tagPtr blkPtr MAC_SERIAL_READ in
  r = true /\
  blk' = reply_header avail ++ take n (fifo_contents (fifo g))
           ++ drop (12 + n) blkPtr /\
  fifo_contents (fifo g') = drop n (fifo_contents (fifo g)) /\
  fifoLen (fifo g') = avail - Z.of_nat n /\
  g' = set_fifo g (fifo g').
Proof.
  intros Hwf Hblk avail n. unfold mac_serial_magic_sector_io, mac_serial_handler.
  unfold MAC_SERIAL_HEADER_LEN, fifoBytesAvailable.
  change (Z.to_nat 12) with 12%nat. change (512 - 12) with 500.
  assert (Hroom : Z.min (fifoLen (fifo g)) 500
                  <= Z.of_nat (length (drop 12 blkPtr)))
    by (rewrite length_drop, Hblk; lia).
  pose proof (fifoGetData_front (fifo g) (drop 12 blkPtr) 500 Hwf
                ltac:(lia) Hroom) as Hget.
  destruct (fifoGetData (fifo g) (drop 12 blkPtr) 500) as [[fb' payload] cnt].
  destruct Hget as (Hcnt & Hpay & Hrest & Hlen & _).
  fold avail in Hcnt. subst cnt. fold n in Hpay, Hrest.
  assert (Hn : Z.of_nat n = Z.min avail 500).
  { subst n avail. destruct Hwf as [Hr _]. lia. }
  split; [reflexivity |]. cbn [fifo set_fifo].
  split; [| split; [exact Hrest | split; [lia | reflexivity]]].
  rewrite put_header_bytes
    by (rewrite length_app, length_take, Hblk; lia).
  f_equal. rewrite drop_app_length' by (rewrite length_take, Hblk; lia).
  rewrite Hpay, drop_drop. reflexivity.
Qed.

(** X13. A read through the channel handler, on a well-formed queue and a 512
    byte block: the call returns true; the block receives a reply header
    that declares the number of bytes that were queued (which can exceed
    the 500 that fit), followed by the first min(queued, 500) bytes of the
    queue; the rest of the block is untouched and exactly the delivered
    bytes leave the queue. *)
Theorem channel_read (g : globals) (tagPtr blkPtr : buffer) :
  fifo_wf (fifo g) ->
  length blkPtr = 512%nat ->
  let avail := fifoLen (fifo g) in
  let n := Z.to_nat (Z.min avail 500) in
  let '(r, g', blk') := mac_serial_magic_sector_io g tagPtr blkPtr MAC_SERIAL_READ in
  r = true /\
  blk' = reply_header avail ++ take n (fifo_contents (fifo g))
           ++ drop (12 + n) blkPtr /\
  fifo_contents (fifo g') = drop n (fifo_contents (fifo g)) /\
  fifoLen (fifo g') = avail - Z.of_nat n /\
  g' = set_fifo g (fifo g').
Proof.
  intros Hwf Hblk. exact (channel_read_parts g tagPtr blkPtr Hwf Hblk).
Qed.

Lemma channel_read_witness :
  let g := set_fifo globals_init (fifoPutData fifo_init [5; 6; 7] 3) in
  let '(r, g', blk') :=
    mac_serial_magic_sector_io g (replicate 12 0) (replicate 512 1) MAC_SERIAL_READ in
  r = true /\ take 16 blk' = reply_header 3 ++ [5; 6; 7; 1] /\
  fifo_contents (fifo g') = [].
Proof.
  intros g.
  assert (Hwf : fifo_wf (fifo g))
    by (split; [vm_compute; split; discriminate | reflexivity]).
  assert (Hblk : length (replicate 512 1) = 512%nat) by reflexivity.
  pose proof (channel_read g (replicate 12 0) (replicate 512 1) Hwf Hblk) as H.
  cbv zeta in H.
  destruct (mac_serial_magic_sector_io g (replicate 12 0) (replicate 512 1)
              MAC_SERIAL_READ) as [[r g'] blk'].
  destruct H as (Hr & Hb & Hc & _).
  split; [exact Hr |]. split; [rewrite Hb | rewrite Hc]; reflexivity.
Defined.

(** X14. An accepted write whose clamped length does not fit the queue is
    still reported as handled, but none of its bytes is queued: the
    globals and the block come back unchanged. *)
Theorem channel_write_overflow_dropped (g : globals) (tagPtr blkPtr : buffer) :
  let inTags := header_valid tagPtr in
  let len := if inTags then Z.min (header_len tagPtr) 512
             else Z.min (header_len blkPtr) 500 in
  inTags = true \/ header_valid blkPtr = true ->
  FIFO_SIZE < fifoLen (fifo g) + len ->
  mac_serial_magic_sector_io g tagPtr blkPtr MAC_SERIAL_WRITE = (true, g, blkPtr).
Proof.
  intros inTags len Hvalid Hover. subst inTags len.
  unfold mac_serial_magic_sector_io. rewrite (get_header_cases tagPtr).
  destruct (header_valid tagPtr) eqn:Htag.
  - rewrite clamp_min. change (512 - 0) with 512.
    unfold mac_serial_handler. rewrite fifoPutData_overflow by lia.
    now rewrite set_fifo_same.
  - destruct Hvalid as [Hv | Hv]; [discriminate |].
    rewrite (get_header_cases blkPtr), Hv, clamp_min.
    unfold MAC_SERIAL_HEADER_LEN. change (512 - 12) with 500.
    unfold mac_serial_handler. rewrite fifoPutData_overflow by lia.
    now rewrite set_fifo_same.
Qed.

Lemma channel_write_overflow_dropped_witness :
  let g := set_fifo globals_init (mkFifo 1990 (replicate 2000 0)) in
  let blk := request_header 100 ++ replicate 500 1 in
  mac_serial_magic_sector_io g (replicate 12 0) blk MAC_SERIAL_WRITE = (true, g, blk).
Proof.
  intros g blk.
  apply (channel_write_overflow_dropped g (replicate 12 0) blk).
  - right. reflexivity.
  - vm_compute. reflexivity.
Defined.

Lemma request_header_decodes len rest l :
  is_uint16 len ->
  mac_serial_get_header (request_header len ++ rest) l = (true, len).
Proof.
  intros Hlen. unfold mac_serial_get_header. simpl negb. cbv iota.
  f_equal. change (rd _ 6) with (len / 256 mod 256).
  change (rd _ 7) with (len mod 256).
  now apply length_field_roundtrip.
Qed.

(** X15. Loopback round trip: a write whose block carries a request header
    declaring len(payload) <= 500 followed by the payload (the tags
    holding no header), issued on an empty queue, followed by a read into
    any 512 byte block, returns the payload behind a reply header that
    declares the same length, and leaves the queue empty again. *)
Theorem loopback_roundtrip (g : globals) (payload pad tagw tagr blkr : buffer) :
  fifo_wf (fifo g) ->
  fifoLen (fifo g) = 0 ->
  header_valid tagw = false ->
  Z.of_nat (length payload) <= 500 ->
  length blkr = 512%nat ->
  let len := Z.of_nat (length payload) in
  let blkw := request_header len ++ payload ++ pad in
  let '(r1, g1, _) := mac_serial_magic_sector_io g tagw blkw MAC_SERIAL_WRITE in
  let '(r2, g2, blk2) := mac_serial_magic_sector_io g1 tagr blkr MAC_SERIAL_READ in
  r1 = true /\ r2 = true /\
  blk2 = reply_header len ++ payload ++ drop (12 + length payload) blkr /\
  fifo_contents (fifo g2) = [] /\ fifoLen (fifo g2) = 0.
Proof.
  intros Hwf Hempty Htag Hlen Hblk len blkw.
  assert (Hw : mac_serial_magic_sector_io g tagw blkw MAC_SERIAL_WRITE
               = (true, set_fifo g (fifoPutData (fifo g) payload len), blkw)).
  { unfold mac_serial_magic_sector_io. rewrite (get_header_cases tagw), Htag.
    unfold blkw at 1. rewrite request_header_decodes by (unfold is_uint16; lia).
    rewrite clamp_min. unfold MAC_SERIAL_HEADER_LEN. change (512 - 12) with 500.
    rewrite Z.min_l by lia. unfold mac_serial_handler.
    change (Z.to_nat 12) with 12%nat.
    unfold blkw. rewrite drop_app_length' by reflexivity.
    unfold fifoPutData, memcpy. fold len.
    replace (take (Z.to_nat len) (payload ++ pad)) with (take (Z.to_nat len) payload)
      by (unfold len; rewrite Nat2Z.id, take_app_length, firstn_all; reflexivity).
    reflexivity. }
  rewrite Hw.
  assert (Hfit : fifoLen (fifo g) + len <= FIFO_SIZE)
    by (unfold FIFO_SIZE; lia).
  destruct (fifoPutData_fits (fifo g) payload Hwf Hfit) as (Hc & Hl & Hwf1).
  fold len in Hc, Hl, Hwf1.
  set (g1 := set_fifo g (fifoPutData (fifo g) payload len)).
  assert (Hold : fifo_contents (fifo g) = [])
    by (unfold fifo_contents; now rewrite Hempty).
  rewrite Hold in Hc. rewrite Hempty in Hl. simpl in Hc, Hl.
  pose proof (channel_read_parts g1 tagr blkr Hwf1 Hblk) as Hr.
  cbv zeta in Hr. cbn [g1 fifo set_fifo] in Hr. rewrite Hl, Hc in Hr.
  destruct (mac_serial_magic_sector_io g1 tagr blkr MAC_SERIAL_READ)
    as [[r2 g2] blk2].
  destruct Hr as (Hr2 & Hb & Hrest & Hlen2 & _).
  replace (Z.to_nat ((0 + len) `min` 500)) with (length payload)
    in Hb, Hrest, Hlen2 by (unfold len; lia).
  change (0 + len) with len in Hb, Hlen2.
  rewrite firstn_all in Hb. rewrite drop_all in Hrest.
  repeat split; try assumption. unfold len in Hlen2 |- *. lia.
Qed.

Lemma loopback_roundtrip_witness :
  let blkw := request_header 3 ++ [11; 22; 33] ++ replicate 497 0 in
  let '(r1, g1, _) :=
    mac_serial_magic_sector_io globals_init (replicate 12 0) blkw MAC_SERIAL_WRITE in
  let '(r2, g2, blk2) :=
    mac_serial_magic_sector_io g1 (replicate 12 0) (replicate 512 9) MAC_SERIAL_READ in
  r1 = true /\ r2 = true /\ take 16 blk2 = reply_header 3 ++ [11; 22; 33; 9].
Proof.
  assert (Hwf : fifo_wf (fifo globals_init))
    by (split; [vm_compute; split; discriminate | reflexivity]).
  assert (Hempty : fifoLen (fifo globals_init) = 0) by reflexivity.
  assert (Htag : header_valid (replicate 12 0) = false) by reflexivity.
  assert (Hlen : Z.of_nat (length [11; 22; 33]) <= 500) by (simpl; lia).
  assert (Hblk : length (replicate 512 9) = 512%nat) by reflexivity.
  pose proof (loopback_roundtrip globals_init [11; 22; 33] (replicate 497 0)
                (replicate 12 0) (replicate 12 0) (replicate 512 9)
                Hwf Hempty Htag Hlen Hblk) as H.
  cbv zeta in H |- *. change (Z.of_nat (length [11; 22; 33])) with 3 in H.
  destruct (mac_serial_magic_sector_io globals_init (replicate 12 0) _
              MAC_SERIAL_WRITE) as [[r1 g1] b1].
  destruct (mac_serial_magic_sector_io g1 (replicate 12 0) (replicate 512 9)
              MAC_SERIAL_READ) as [[r2 g2] blk2].
  destruct H as (H1 & H2 & Hb & _).
  split; [exact H1 |]. split; [exact H2 |]. rewrite Hb. reflexivity.
Defined.


End Channel.

(** ** The Active phase and the whole handshake *)

Section ActivePhase.

(** The channel handler reads no global but the queue. *)
Lemma magic_sector_io_set_knock g k tagPtr blkPtr mode :
  mac_serial_magic_sector_io (set_knock g k) tagPtr blkPtr mode =
  let '(r, g', blk') := mac_serial_magic_sector_io g tagPtr blkPtr mode in
  (r, set_knock g' k, blk').
Proof.
  unfold mac_serial_magic_sector_io. destruct mode; cbn [fifo set_knock].
  - now destruct (mac_serial_handler _ _ _ _) as [[f p] n].
  - destruct (mac_serial_get_header tagPtr 0) as [[] len].
    + now destruct (mac_serial_handler _ _ _ _) as [[f p] n].
    + destruct (mac_serial_get_header blkPtr len) as [[] len']; [| reflexivity].
      now destruct (mac_serial_handler _ _ _ _) as [[f p] n].
Qed.

(** X16. In Active, an access on the claimed drive at the magic sector (not
    completing a knock) is served by the channel handler alone: block and
    queue are those the handler leaves, the tags are untouched, the phase
    and the claimed pair stay, and the call returns the handler's own
    result, so that a write without a recognisable header is returned as
    not handled. *)
Theorem active_magic_sector_io (g : globals) (drive sector : Z)
    (tagPtr blkPtr : buffer) (mode : mac_serial_mode) :
  mac_serial_state g = MAC_SERIAL_WAIT_MAGIC_SECTOR ->
  sector <> MAC_SERIAL_NEGATIVE_LBA ->
  fst (mac_serial_detect_knock_sequence g sector) = false ->
  drive = mac_serial_drive g ->
  sector = mac_serial_sector g ->
  let o := is_mac_serial_io g drive sector tagPtr blkPtr mode in
  let '(r, gh, bh) := mac_serial_magic_sector_io g tagPtr blkPtr mode in
  handled o = r /\ tags o = tagPtr /\ block o = bh /\
  fifo (after o) = fifo gh /\
  mac_serial_state (after o) = MAC_SERIAL_WAIT_MAGIC_SECTOR /\
  mac_serial_drive (after o) = mac_serial_drive g /\
  mac_serial_sector (after o) = mac_serial_sector g.
Proof.
  intros Hst Hsent Hknock -> ->. unfold is_mac_serial_io.
  rewrite not_sentinel by assumption.
  destruct (detect_knock_frame g (mac_serial_sector g)) as [k Hframe].
  destruct (mac_serial_detect_knock_sequence g (mac_serial_sector g))
    as [knocked g1].
  simpl in Hknock, Hframe. subst knocked g1.
  cbn [mac_serial_state set_knock mac_serial_drive mac_serial_sector].
  rewrite Hst, !Z.eqb_refl. cbn [andb].
  rewrite magic_sector_io_set_knock.
  destruct (magic_sector_io_frame g tagPtr blkPtr mode) as [f Hf].
  destruct (mac_serial_magic_sector_io g tagPtr blkPtr mode) as [[r gh] bh].
  simpl in Hf. subst gh. cbv zeta. cbn. repeat split; assumption.
Qed.

Lemma active_magic_sector_io_witness :
  let g := mkGlobals MAC_SERIAL_WAIT_MAGIC_SECTOR 0 1 500 fifo_init in
  let o := is_mac_serial_io g 1 500 (replicate 12 0) (replicate 512 0)
             MAC_SERIAL_WRITE in
  handled o = false /\ block o = replicate 512 0 /\ fifo (after o) = fifo_init.
Proof.
  intros g.
  assert (Hst : mac_serial_state g = MAC_SERIAL_WAIT_MAGIC_SECTOR) by reflexivity.
  assert (Hsent : 500 <> MAC_SERIAL_NEGATIVE_LBA) by (vm_compute; discriminate).
  assert (Hknock : fst (mac_serial_detect_knock_sequence g 500) = false)
    by reflexivity.
  pose proof (active_magic_sector_io g 1 500 (replicate 12 0) (replicate 512 0)
                MAC_SERIAL_WRITE Hst Hsent Hknock eq_refl eq_refl) as H.
  cbv zeta in H.
  change (mac_serial_magic_sector_io g (replicate 12 0) (replicate 512 0)
            MAC_SERIAL_WRITE)
    with (false, g, replicate 512 0) in H.
  destruct H as (Hh & _ & Hb & Hf & _).
  split; [exact Hh |]. split; [exact Hb | exact Hf].
Defined.

End ActivePhase.

Section WholeHandshake.

(** Below the last index a call of the detection cannot complete a
    knock and advances the counter by one at most. *)
Lemma detect_knock_early g sector :
  0 <= mac_serial_knock g < 4 ->
  exists k, mac_serial_detect_knock_sequence g sector = (false, set_knock g k) /\
            0 <= k <= mac_serial_knock g + 1.
Proof.
  intros Hk. unfold mac_serial_detect_knock_sequence.
  case_bool_decide; [| exists 0; split; [reflexivity | lia]].
  unfold uint8. rewrite Z.mod_small by lia.
  destruct (Z.eqb_spec (mac_serial_knock g + 1)
              (Z.of_nat (length MAC_SERIAL_KNOCK_SEQ))) as [E | N].
  - simpl in E. lia.
  - eexists. split; [reflexivity | lia].
Qed.

(** The magic write in ClaimedDrive, as one equation. *)
Lemma claimed_write_call g sector tagPtr blkPtr :
  mac_serial_state g = MAC_SERIAL_WAIT_MAGIC_WRITE ->
  sector <> MAC_SERIAL_NEGATIVE_LBA ->
  fst (mac_serial_detect_knock_sequence g sector) = false ->
  is_mac_serial_io g (mac_serial_drive g) sector tagPtr blkPtr MAC_SERIAL_WRITE =
    mkOutcome true
      (set_state (set_sector (snd (mac_serial_detect_knock_sequence g sector)) sector)
                 MAC_SERIAL_WAIT_MAGIC_READ)
      tagPtr blkPtr.
Proof.
  intros Hst Hsent Hknock. unfold is_mac_serial_io.
  rewrite not_sentinel by assumption.
  destruct (detect_knock_frame g sector) as [k Hframe].
  destruct (mac_serial_detect_knock_sequence g sector) as [knocked g1].
  simpl in Hknock, Hframe. subst knocked g1. simpl.
  rewrite Hst. simpl. now rewrite Z.eqb_refl.
Qed.

(** The confirming read in SectorPending, as one equation. *)
Lemma pending_read_call g tagPtr blkPtr :
  mac_serial_state g = MAC_SERIAL_WAIT_MAGIC_READ ->
  mac_serial_sector g <> MAC_SERIAL_NEGATIVE_LBA ->
  fst (mac_serial_detect_knock_sequence g (mac_serial_sector g)) = false ->
  (12 <= length tagPtr)%nat ->
  (8 <= length blkPtr)%nat ->
  is_mac_serial_io g (mac_serial_drive g) (mac_serial_sector g) tagPtr blkPtr
    MAC_SERIAL_READ =
    mkOutcome true
      (set_state (snd (mac_serial_detect_knock_sequence g (mac_serial_sector g)))
                 MAC_SERIAL_WAIT_MAGIC_SECTOR)
      (reply_header 8 ++ drop 12 tagPtr)
      ([70; 85; 74; 73] ++ be32 (mac_serial_sector g) ++ drop 8 blkPtr).
Proof.
  intros Hst Hsent Hknock Htag Hblk. unfold is_mac_serial_io.
  rewrite not_sentinel by assumption.
  destruct (detect_knock_frame g (mac_serial_sector g)) as [k Hframe].
  destruct (mac_serial_detect_knock_sequence g (mac_serial_sector g))
    as [knocked g1].
  simpl in Hknock, Hframe. subst knocked g1. simpl.
  rewrite Hst. simpl. rewrite !Z.eqb_refl. simpl.
  now rewrite put_header_bytes, confirm_block by assumption.
Qed.

(** X17. The whole handshake: from Idle with the counter at 0, five accesses
    at 0, 70, 85, 74, 73 of which the last is a read on [drive], then a
    write on that drive at any sector but the sentinel, then a read on
    that drive at the same sector, establish the channel: both calls are
    handled, the session is Active on that drive and sector, the queue is
    as it was, and the last read returns the reply header with length 8
    in the tags and the reply marker with the big-endian sector in the
    block. *)
Theorem handshake_completes (g : globals) (a1 a2 a3 a4 a5 : access)
    (drive sector : Z) (tagw blkw tagr blkr : buffer) :
  mac_serial_state g = MAC_SERIAL_WAIT_KNOCK ->
  mac_serial_knock g = 0 ->
  map a_sector [a1; a2; a3; a4; a5] = [0; 70; 85; 74; 73] ->
  a_mode a5 = MAC_SERIAL_READ ->
  a_drive a5 = drive ->
  sector <> MAC_SERIAL_NEGATIVE_LBA ->
  (12 <= length tagr)%nat ->
  (8 <= length blkr)%nat ->
  let g5 := run g [a1; a2; a3; a4; a5] in
  let o6 := is_mac_serial_io g5 drive sector tagw blkw MAC_SERIAL_WRITE in
  let o7 := is_mac_serial_io (after o6) drive sector tagr blkr MAC_SERIAL_READ in
  handled o6 = true /\ tags o6 = tagw /\ block o6 = blkw /\
  handled o7 = true /\
  mac_serial_state (after o7) = MAC_SERIAL_WAIT_MAGIC_SECTOR /\
  mac_serial_drive (after o7) = drive /\
  mac_serial_sector (after o7) = sector /\
  fifo (after o7) = fifo g /\
  tags o7 = reply_header 8 ++ drop 12 tagr /\
  block o7 = [70; 85; 74; 73] ++ be32 sector ++ drop 8 blkr.
Proof.
  destruct a1 as [d1 s1 t1 b1 m1], a2 as [d2 s2 t2 b2 m2],
           a3 as [d3 s3 t3 b3 m3], a4 as [d4 s4 t4 b4 m4],
           a5 as [d5 s5 t5 b5 m5].
  intros Hst Hk Hsec Hm5 Hd5 Hsent Htag Hblk.
  simpl in Hsec, Hm5, Hd5. injection Hsec as -> -> -> -> ->. subst m5 d5.
  destruct g as [st k d s f]. simpl in Hst, Hk. subst st k.
  intros g5.
  assert (H5 : g5 = mkGlobals MAC_SERIAL_WAIT_MAGIC_WRITE 0 drive 0 f).
  { unfold g5, run, step.
    cbn [fold_left a_drive a_sector a_tags a_block a_mode].
    repeat (rewrite idle_call by (reflexivity || (vm_compute; discriminate));
            cbn [after]).
    rewrite knock_completing_call by reflexivity. reflexivity. }
  rewrite H5. clear g5 H5.
  set (gc := mkGlobals MAC_SERIAL_WAIT_MAGIC_WRITE 0 drive 0 f).
  destruct (detect_knock_early gc sector) as (k6 & Hd6 & Hk6); [simpl; lia |].
  pose proof (claimed_write_call gc sector tagw blkw eq_refl Hsent) as H6.
  rewrite Hd6 in H6. specialize (H6 eq_refl). cbn in H6.
  cbv zeta. rewrite H6. clear H6. cbn [after handled tags block].
  set (gp := mkGlobals MAC_SERIAL_WAIT_MAGIC_READ k6 drive sector f).
  change (set_state (set_sector (set_knock gc k6) sector) MAC_SERIAL_WAIT_MAGIC_READ)
    with gp.
  destruct (detect_knock_early gp sector) as (k7 & Hd7 & Hk7);
    [simpl in Hk6 |- *; lia |].
  pose proof (pending_read_call gp tagr blkr eq_refl Hsent) as H7.
  cbn [gp mac_serial_sector mac_serial_drive] in H7. fold gp in H7.
  rewrite Hd7 in H7. specialize (H7 eq_refl Htag Hblk).
  rewrite H7. cbn. repeat split.
Qed.

Lemma handshake_completes_witness :
  let acc s := mkAccess 4 s (replicate 12 0) (replicate 512 0) MAC_SERIAL_READ in
  let g5 := run globals_init [acc 0; acc 70; acc 85; acc 74; acc 73] in
  let o6 := is_mac_serial_io g5 4 66051 (replicate 12 0) magic_pattern
              MAC_SERIAL_WRITE in
  let o7 := is_mac_serial_io (after o6) 4 66051 (replicate 12 0) (replicate 512 0)
              MAC_SERIAL_READ in
  mac_serial_state (after o7) = MAC_SERIAL_WAIT_MAGIC_SECTOR /\
  take 8 (block o7) = [70; 85; 74; 73; 0; 1; 2; 3].
Proof.
  intros acc g5 o6 o7.
  assert (Hsent : 66051 <> MAC_SERIAL_NEGATIVE_LBA) by (vm_compute; discriminate).
  assert (Htag : (12 <= length (replicate 12 0%Z))%nat) by (simpl; lia).
  assert (Hblk : (8 <= length (replicate 512 0%Z))%nat) by (simpl; lia).
  destruct (handshake_completes globals_init (acc 0) (acc 70) (acc 85) (acc 74)
              (acc 73) 4 66051 (replicate 12 0) magic_pattern (replicate 12 0)
              (replicate 512 0) eq_refl eq_refl eq_refl eq_refl eq_refl
              Hsent Htag Hblk)
    as (_ & _ & _ & _ & Hst & _ & _ & _ & _ & Hb).
  split; [exact Hst |]. unfold o7, o6, g5. rewrite Hb. reflexivity.
Defined.

End WholeHandshake.

(** ** Invariants of the globals *)

Section SessionInvariant.

Lemma header_len_nonneg buff : 0 <= header_len buff.
Proof.
  unfold header_len, mac_serial_get_header.
  destruct (negb _); cbn [snd]; [lia |].
  unfold uint16. apply Z.mod_pos_bound. lia.
Qed.

Lemma magic_sector_io_wf g tagPtr blkPtr mode :
  fifo_wf (fifo g) ->
  fifo_wf (fifo (snd (fst (mac_serial_magic_sector_io g tagPtr blkPtr mode)))).
Proof.
  intros Hwf. unfold mac_serial_magic_sector_io. destruct mode.
  - unfold mac_serial_handler.
    pose proof (fifoGetData_wf (fifo g) (drop (Z.to_nat MAC_SERIAL_HEADER_LEN) blkPtr)
                  (512 - MAC_SERIAL_HEADER_LEN) Hwf) as H.
    destruct (fifoGetData _ _ _) as [[f p] n]. apply H.
    unfold MAC_SERIAL_HEADER_LEN. lia.
  - rewrite (get_header_cases tagPtr).
    pose proof (header_len_nonneg tagPtr) as Ht.
    pose proof (header_len_nonneg blkPtr) as Hb.
    destruct (header_valid tagPtr).
    + rewrite clamp_min. unfold mac_serial_handler. cbn [fst snd fifo set_fifo].
      apply fifoPutData_wf; [assumption | lia].
    + rewrite (get_header_cases blkPtr). destruct (header_valid blkPtr);
        [| assumption].
      rewrite clamp_min. unfold mac_serial_handler, MAC_SERIAL_HEADER_LEN.
      cbn [fst snd fifo set_fifo]. apply fifoPutData_wf; [assumption | lia].
Qed.

Lemma call_keeps_session_ok g a : session_ok g -> session_ok (after (step g a)).
Proof.
  intros (Hwf & Hsec & Hzero). destruct a as [drive sector tagPtr blkPtr mode].
  unfold step, is_mac_serial_io. cbn [a_drive a_sector a_tags a_block a_mode].
  destruct (Z.eqb_spec sector MAC_SERIAL_NEGATIVE_LBA) as [-> | Hsent].
  - pose proof (magic_sector_io_wf g tagPtr blkPtr mode Hwf) as Hwf'.
    destruct (magic_sector_io_frame g tagPtr blkPtr mode) as [f Hf].
    destruct (mac_serial_magic_sector_io g tagPtr blkPtr mode) as [[r g1] b1].
    simpl in Hf, Hwf'. subst g1. cbn [fifo set_fifo] in Hwf'.
    cbn [mac_serial_state set_fifo].
    destruct (mac_serial_state g) eqn:Est; cbn [negb state_eqb after];
      (split; [exact Hwf' | split; [exact Hsec | cbn; congruence]]).
  - destruct (detect_knock_frame g sector) as [k Hframe].
    destruct (mac_serial_detect_knock_sequence g sector) as [knocked g1].
    simpl in Hframe. subst g1.
    destruct knocked;
      cbn [mac_serial_state set_state set_drive set_sector set_knock
           mac_serial_drive mac_serial_sector].
    + destruct (andb _ _); cbn [after];
        (split; [exact Hwf | split; [cbn; assumption || (vm_compute; discriminate)
                                    | cbn; congruence]]).
    + destruct (mac_serial_state g) eqn:Est.
      * split; [exact Hwf | split; [exact Hsec | cbn; congruence]].
      * destruct (andb _ _); cbn [after];
          (split; [exact Hwf | split; [cbn; assumption | cbn; congruence || auto]]).
      * destruct (andb _ _); cbn [after];
          (split; [exact Hwf | split; [exact Hsec | cbn; congruence]]).
      * destruct (andb _ _);
          [| split; [exact Hwf | split; [exact Hsec | cbn; congruence]]].
        pose proof (magic_sector_io_wf (set_knock g k) tagPtr blkPtr mode Hwf) as Hwf'.
        destruct (magic_sector_io_frame (set_knock g k) tagPtr blkPtr mode) as [f Hf].
        destruct (mac_serial_magic_sector_io _ tagPtr blkPtr mode) as [[r g3] b3].
        simpl in Hf, Hwf'. subst g3.
        split; [exact Hwf' | split; [exact Hsec | cbn; congruence]].
Qed.

(** X18. After any series of calls from the initial globals, with any
    drives, sectors, buffers and directions: the queue object is well
    formed (its length is between 0 and 2000 and its array keeps 2000
    cells), the magic sector is never the sentinel address, and it is 0
    whenever the session is in ClaimedDrive. *)
Theorem session_invariant (accs : list access) :
  session_ok (run globals_init accs).
Proof.
  assert (H0 : session_ok globals_init).
  { split; [split; [vm_compute; split; discriminate | reflexivity] |].
    split; [vm_compute; discriminate | reflexivity]. }
  revert H0. generalize globals_init.
  induction accs as [| a accs IH]; intros g Hg; [exact Hg |].
  apply IH. now apply call_keeps_session_ok.
Qed.

End SessionInvariant.

(** ** The validation loop of the magic write *)

Section MagicPattern.

Lemma magic_sector_mismatch_none blk i n :
  magic_sector_mismatch blk i n = None <->
  forall j, (i <= j < i + n)%nat ->
            rd blk j = rd MAC_SERIAL_REQUEST_TAG (Nat.land j 3).
Proof.
  revert i. induction n as [| n IH]; intros i; cbn [magic_sector_mismatch].
  - split; [intros _ j Hj; lia | reflexivity].
  - destruct (Z.eqb_spec (rd MAC_SERIAL_REQUEST_TAG (Nat.land i 3)) (rd blk i))
      as [E | N]; cbn [negb].
    + rewrite IH. split; intros H j Hj.
      * destruct (Nat.eq_dec j i) as [-> | Hne]; [now symmetry |].
        apply H. lia.
      * apply H. lia.
    + split; [discriminate |]. intros H. exfalso. apply N. symmetry. apply H. lia.
Qed.

Lemma magic_sector_mismatch_some blk i n m :
  magic_sector_mismatch blk i n = Some m ->
  (i <= m < i + n)%nat /\
  rd blk m <> rd MAC_SERIAL_REQUEST_TAG (Nat.land m 3) /\
  forall j, (i <= j < m)%nat ->
            rd blk j = rd MAC_SERIAL_REQUEST_TAG (Nat.land j 3).
Proof.
  revert i. induction n as [| n IH]; intros i; cbn [magic_sector_mismatch];
    [discriminate |].
  destruct (Z.eqb_spec (rd MAC_SERIAL_REQUEST_TAG (Nat.land i 3)) (rd blk i))
    as [E | N]; cbn [negb].
  - intros H. destruct (IH _ H) as (Hr & Hne & Hbefore).
    split; [lia |]. split; [exact Hne |]. intros j Hj.
    destruct (Nat.eq_dec j i) as [-> | Hji]; [now symmetry |].
    apply Hbefore. lia.
  - intros [= <-]. split; [lia |]. split; [congruence |]. intros j Hj. lia.
Qed.

Lemma magic_pattern_cell j :
  (j < 512)%nat -> rd magic_pattern j = rd MAC_SERIAL_REQUEST_TAG (Nat.land j 3).
Proof.
  intros Hj.
  assert (Hall : forallb (fun j => rd magic_pattern j
                                   =? rd MAC_SERIAL_REQUEST_TAG (Nat.land j 3))
                         (seq 0 512) = true) by (vm_compute; reflexivity).
  rewrite forallb_forall in Hall. apply Z.eqb_eq, Hall, in_seq. lia.
Qed.

Lemma rd_ext (a b : buffer) n :
  length a = n -> length b = n ->
  (forall j, (j < n)%nat -> rd a j = rd b j) -> a = b.
Proof.
  intros Ha Hb H. apply list_eq. intros j.
  destruct (Nat.lt_ge_cases j n) as [Hlt | Hge].
  - specialize (H j Hlt). unfold rd in H.
    destruct (lookup_lt_is_Some_2 a j ltac:(lia)) as [x Hx].
    destruct (lookup_lt_is_Some_2 b j ltac:(lia)) as [y Hy].
    rewrite Hx, Hy in H |- *. simpl in H. now subst.
  - rewrite !lookup_ge_None_2 by lia. reflexivity.
Qed.

(** X19. The loop that inspects a magic write finds no mismatch exactly when
    the 512 byte block is 128 repetitions of "NDEV"; otherwise it stops at
    the first byte that departs from that pattern. *)
Theorem magic_sector_mismatch_spec (blkPtr : buffer) :
  length blkPtr = 512%nat ->
  (magic_sector_mismatch blkPtr 0 512 = None <-> blkPtr = magic_pattern) /\
  (forall i, magic_sector_mismatch blkPtr 0 512 = Some i ->
     (i < 512)%nat /\ rd blkPtr i <> rd magic_pattern i /\
     take i blkPtr = take i magic_pattern).
Proof.
  intros Hlen. split.
  - rewrite magic_sector_mismatch_none. split.
    + intros H. apply (rd_ext _ _ 512%nat); [assumption | reflexivity |].
      intros j Hj. rewrite magic_pattern_cell by assumption. apply H. lia.
    + intros -> j Hj. apply magic_pattern_cell. lia.
  - intros i H. apply magic_sector_mismatch_some in H as (Hr & Hne & Hbefore).
    split; [lia |]. split; [now rewrite magic_pattern_cell by lia |].
    apply (rd_ext _ _ i).
    + rewrite length_take_le; lia.
    + rewrite length_take_le; [reflexivity |].
      change (length magic_pattern) with 512%nat. lia.
    + intros j Hj. unfold rd. rewrite !lookup_take_lt by assumption.
      fold (rd blkPtr j). fold (rd magic_pattern j).
      rewrite magic_pattern_cell by lia. apply Hbefore. lia.
Qed.

Lemma magic_sector_mismatch_spec_witness :
  magic_sector_mismatch magic_pattern 0 512 = None.
Proof.
  assert (Hlen : length magic_pattern = 512%nat) by reflexivity.
  destruct (magic_sector_mismatch_spec magic_pattern Hlen) as [[_ H] _].
  apply H. reflexivity.
Defined.

End MagicPattern.
